(** * GfxAnimate (SCI animation compositor): a shallow embedding

    This development models [GfxAnimate] of the SCI engine
    (sci/graphics/animate.cpp): the cast list builder, the sort by
    [sortHelper], the per-entry geometry resolution done in [fill], the four
    signal passes of [update], [drawCels], [updateScreen],
    [restoreAndDelete], [reAnimate], [invoke] and [kernelAnimate].

    Conventions.
    - [reg_t] values (objects, list and node addresses, bits handles) are [Z];
      [0] is [NULL_REG].
    - Integer fields keep the widths of [AnimateEntry] (sci/graphics/animate.h):
      [int16] fields are wrapped with [wrap16], [uint16] fields ([signal],
      [scaleSignal]) with [wrapU16], the [byte] counter with [wrapU8].
    - The segment manager, the object store, the views, the ports, the painter
      and the scripts are external collaborators; they are explicit state
      ([St]) and an environment of functions ([Env]). Every observable call to
      the painter is recorded, in order, in the log [st_log]. *)

From Stdlib Require Import ZArith List Bool String Lia.
From Stdlib Require Import Sorting.Permutation Sorting.Sorted.
Import ListNotations.
Open Scope Z_scope.

(** ** Machine integers *)

Definition wrap16 (v : Z) : Z := Z.modulo (v + 32768) 65536 - 32768.
Definition wrapU16 (v : Z) : Z := Z.modulo v 65536.
Definition wrapU8 (v : Z) : Z := Z.modulo v 256.

(** [CLIP<int16>] of common/util.h. *)
Definition CLIP (v amin amax : Z) : Z :=
  if v <? amin then amin else if amax <? v then amax else v.

(** ** Signal bits (sci/graphics/animate.h) *)

Definition kSignalStopUpdate    : Z := 1.
Definition kSignalViewUpdated   : Z := 2.
Definition kSignalNoUpdate      : Z := 4.
Definition kSignalHidden        : Z := 8.
Definition kSignalFixedPriority : Z := 16.
Definition kSignalAlwaysUpdate  : Z := 32.
Definition kSignalForceUpdate   : Z := 64.
Definition kSignalRemoveView    : Z := 128.
Definition kSignalFrozen        : Z := 256.
Definition kSignalIgnoreActor   : Z := 16384.
Definition kSignalDisposeMe     : Z := 32768.

Definition kScaleSignalDoScaling             : Z := 1.
Definition kScaleSignalGlobalScaling         : Z := 2.
Definition kScaleSignalHoyle4SpecialHandling : Z := 4.

(** [s & m] used as a condition. *)
Definition has (s m : Z) : bool := negb (Z.land s m =? 0).

(** Screen planes of [bitsSave] and [fillRect]. *)
Definition GFX_SCREEN_MASK_VISUAL   : Z := 1.
Definition GFX_SCREEN_MASK_PRIORITY : Z := 2.
Definition GFX_SCREEN_MASK_CONTROL  : Z := 4.
Definition GFX_SCREEN_MASK_ALL      : Z := 7.

(** SCI versions, in the order of the [SciVersion] enum. *)
Definition SCI_VERSION_1_EGA_ONLY : Z := 4.
Definition SCI_VERSION_1_EARLY    : Z := 5.
Definition SCI_VERSION_1_1        : Z := 8.

(** Global variables used here. *)
Definition kGlobalVarCurrentRoom : Z := 2.
Definition kGlobalVarFastCast    : Z := 84.

Definition kAbortNone : Z := 0.

(** ** Rectangles ([Common::Rect]) *)

Record Rect := mkRect { top : Z; left : Z; bottom : Z; right : Z }.

Definition rect_isEmpty (r : Rect) : bool :=
  (right r <=? left r) || (bottom r <=? top r).

Definition rect_clip (a r : Rect) : Rect :=
  mkRect
    (if top a <? top r then top r else if bottom r <? top a then bottom r else top a)
    (if left a <? left r then left r else if right r <? left a then right r else left a)
    (if bottom r <? bottom a then bottom r else if bottom a <? top r then top r else bottom a)
    (if right r <? right a then right r else if right a <? left r then left r else right a).

Definition rect_extend (a r : Rect) : Rect :=
  mkRect (Z.min (top a) (top r)) (Z.min (left a) (left r))
         (Z.max (bottom a) (bottom r)) (Z.max (right a) (right r)).

(** ** Selectors of the objects read and written by the compositor *)

Inductive Sel :=
| SelView | SelLoop | SelCel | SelPalette | SelX | SelY | SelZ | SelPriority
| SelSignal | SelScaleSignal | SelScaleX | SelScaleY | SelMaxScale
| SelVanishingY | SelUnderBits
| SelLsLeft | SelLsTop | SelLsRight | SelLsBottom
| SelNsLeft | SelNsTop | SelNsRight | SelNsBottom.

Scheme Equality for Sel.

(** ** The cast entry ([AnimateEntry]) *)

Record AnimateEntry := mkEntry {
  givenOrderNo : Z;
  object : Z;
  castHandle : Z;
  viewId : Z;
  loopNo : Z;
  celNo : Z;
  paletteNo : Z;
  x : Z;
  y : Z;
  z : Z;
  priority : Z;
  signal : Z;
  scaleSignal : Z;
  scaleX : Z;
  scaleY : Z;
  celRect : Rect;
  showBitsFlag : bool
}.

Definition set_signal (e : AnimateEntry) (v : Z) : AnimateEntry :=
  mkEntry (givenOrderNo e) (object e) (castHandle e) (viewId e) (loopNo e) (celNo e)
    (paletteNo e) (x e) (y e) (z e) (priority e) v (scaleSignal e) (scaleX e)
    (scaleY e) (celRect e) (showBitsFlag e).
Definition set_showBits (e : AnimateEntry) (v : bool) : AnimateEntry :=
  mkEntry (givenOrderNo e) (object e) (castHandle e) (viewId e) (loopNo e) (celNo e)
    (paletteNo e) (x e) (y e) (z e) (priority e) (signal e) (scaleSignal e) (scaleX e)
    (scaleY e) (celRect e) v.
Definition set_loopNo (e : AnimateEntry) (v : Z) : AnimateEntry :=
  mkEntry (givenOrderNo e) (object e) (castHandle e) (viewId e) v (celNo e)
    (paletteNo e) (x e) (y e) (z e) (priority e) (signal e) (scaleSignal e) (scaleX e)
    (scaleY e) (celRect e) (showBitsFlag e).
Definition set_celNo (e : AnimateEntry) (v : Z) : AnimateEntry :=
  mkEntry (givenOrderNo e) (object e) (castHandle e) (viewId e) (loopNo e) v
    (paletteNo e) (x e) (y e) (z e) (priority e) (signal e) (scaleSignal e) (scaleX e)
    (scaleY e) (celRect e) (showBitsFlag e).
Definition set_priority (e : AnimateEntry) (v : Z) : AnimateEntry :=
  mkEntry (givenOrderNo e) (object e) (castHandle e) (viewId e) (loopNo e) (celNo e)
    (paletteNo e) (x e) (y e) (z e) v (signal e) (scaleSignal e) (scaleX e)
    (scaleY e) (celRect e) (showBitsFlag e).
Definition set_scaling (e : AnimateEntry) (ss sx sy : Z) : AnimateEntry :=
  mkEntry (givenOrderNo e) (object e) (castHandle e) (viewId e) (loopNo e) (celNo e)
    (paletteNo e) (x e) (y e) (z e) (priority e) (signal e) ss sx sy
    (celRect e) (showBitsFlag e).
Definition set_celRect (e : AnimateEntry) (v : Rect) : AnimateEntry :=
  mkEntry (givenOrderNo e) (object e) (castHandle e) (viewId e) (loopNo e) (celNo e)
    (paletteNo e) (x e) (y e) (z e) (priority e) (signal e) (scaleSignal e) (scaleX e)
    (scaleY e) v (showBitsFlag e).
Definition set_castHandle (e : AnimateEntry) (v : Z) : AnimateEntry :=
  mkEntry (givenOrderNo e) (object e) v (viewId e) (loopNo e) (celNo e)
    (paletteNo e) (x e) (y e) (z e) (priority e) (signal e) (scaleSignal e) (scaleX e)
    (scaleY e) (celRect e) (showBitsFlag e).

(** ** Script lists *)

Record Node := mkNode { value : Z; succ : Z }.

(** ** Painter and engine calls, as recorded in the log *)

Inductive Event :=
| EvDrawCel (view loop cel : Z) (r : Rect) (prio pal sx sy : Z)
| EvDrawCelScaled (view loop cel : Z) (r : Rect) (prio pal sx sy ss : Z)
| EvFillRect (r : Rect) (mask : Z) (vis pri ctl : Z)
| EvBitsSave (r : Rect) (mask : Z) (handle : Z)
| EvBitsRestore (handle : Z)
| EvBitsFree (handle : Z)
| EvBitsShow (r : Rect)
| EvShowPic
| EvPalVaryDelay
| EvPalVaryUpdate
| EvBeginUpdate
| EvEndUpdate
| EvEventsUpdateScreen
| EvInvokeDoit (obj : Z)
| EvInvokeDelete (obj : Z).

(** ** Engine state seen by the compositor *)

Record St := mkSt {
  st_store : Z -> Sel -> Z;          (** object selectors *)
  st_nodes : Z -> option Node;       (** node table *)
  st_lists : Z -> option Z;          (** list table: first node address *)
  st_globals : Z -> Z;               (** [VAR_GLOBAL] *)
  st_abort : Z;                      (** [abortScriptProcessing] *)
  st_picNotValid : Z;                (** [_screen->_picNotValid] *)
  st_port : Z;                       (** current port *)
  st_list : list AnimateEntry;       (** [_list] *)
  st_lastCast : list AnimateEntry;   (** [_lastCastData] *)
  st_log : list Event;
  st_nextHandle : Z;
  st_throttle : bool                 (** [_throttleTrigger] *)
}.

Definition upd_store (st : St) (f : Z -> Sel -> Z) : St :=
  mkSt f (st_nodes st) (st_lists st) (st_globals st) (st_abort st) (st_picNotValid st)
    (st_port st) (st_list st) (st_lastCast st) (st_log st) (st_nextHandle st) (st_throttle st).
Definition upd_port (st : St) (p : Z) : St :=
  mkSt (st_store st) (st_nodes st) (st_lists st) (st_globals st) (st_abort st)
    (st_picNotValid st) p (st_list st) (st_lastCast st) (st_log st) (st_nextHandle st)
    (st_throttle st).
Definition upd_list (st : St) (l : list AnimateEntry) : St :=
  mkSt (st_store st) (st_nodes st) (st_lists st) (st_globals st) (st_abort st)
    (st_picNotValid st) (st_port st) l (st_lastCast st) (st_log st) (st_nextHandle st)
    (st_throttle st).
Definition upd_lastCast (st : St) (l : list AnimateEntry) : St :=
  mkSt (st_store st) (st_nodes st) (st_lists st) (st_globals st) (st_abort st)
    (st_picNotValid st) (st_port st) (st_list st) l (st_log st) (st_nextHandle st)
    (st_throttle st).
Definition upd_log (st : St) (l : list Event) : St :=
  mkSt (st_store st) (st_nodes st) (st_lists st) (st_globals st) (st_abort st)
    (st_picNotValid st) (st_port st) (st_list st) (st_lastCast st) l (st_nextHandle st)
    (st_throttle st).
Definition upd_nextHandle (st : St) (h : Z) : St :=
  mkSt (st_store st) (st_nodes st) (st_lists st) (st_globals st) (st_abort st)
    (st_picNotValid st) (st_port st) (st_list st) (st_lastCast st) (st_log st) h
    (st_throttle st).
Definition upd_throttle (st : St) (b : bool) : St :=
  mkSt (st_store st) (st_nodes st) (st_lists st) (st_globals st) (st_abort st)
    (st_picNotValid st) (st_port st) (st_list st) (st_lastCast st) (st_log st)
    (st_nextHandle st) b.
Definition upd_picNotValid (st : St) (v : Z) : St :=
  mkSt (st_store st) (st_nodes st) (st_lists st) (st_globals st) (st_abort st) v
    (st_port st) (st_list st) (st_lastCast st) (st_log st) (st_nextHandle st)
    (st_throttle st).

(** ** A state and error monad: [error()] ends the call with a message *)

Inductive Result (A : Type) :=
| Ok (a : A) (st : St)
| Err (msg : string).
Arguments Ok {A}.
Arguments Err {A}.

Definition M (A : Type) : Type := St -> Result A.

Definition ret {A} (a : A) : M A := fun st => Ok a st.
Definition bind {A B} (m : M A) (k : A -> M B) : M B :=
  fun st => match m st with Ok a st' => k a st' | Err msg => Err msg end.
Definition fail {A} (msg : string) : M A := fun _ => Err msg.
Definition get : M St := fun st => Ok st st.
Definition modify (f : St -> St) : M unit := fun st => Ok tt (f st).

Notation "x <- m ;; k" := (bind m (fun x => k))
  (at level 61, m at next level, right associativity).
Notation "m ;;; k" := (bind m (fun _ => k)) (at level 61, right associativity).
Notation "' p <- m ;; k" := (bind m (fun v => match v with p => k end))
  (at level 61, p pattern, m at next level, right associativity).

Definition emit (ev : Event) : M unit := modify (fun st => upd_log st (st_log st ++ [ev])).

Definition store_write (f : Z -> Sel -> Z) (o : Z) (s : Sel) (v : Z) : Z -> Sel -> Z :=
  fun o' s' => if (o' =? o) && Sel_beq s' s then v else f o' s'.

(** [readSelector] / [readSelectorValue] and [writeSelector] /
    [writeSelectorValue]. *)
Definition readSelector (o : Z) (s : Sel) : M Z := fun st => Ok (st_store st o s) st.
Definition writeSelector (o : Z) (s : Sel) (v : Z) : M unit :=
  modify (fun st => upd_store st (store_write (st_store st) o s v)).

(** ** External collaborators *)

(** A view ([GfxView]) as the compositor queries it. *)
Record GfxView := mkView {
  getLoopCount : Z;
  getCelCount : Z -> Z;
  getHeight : Z -> Z -> Z;
  isScaleable : bool;
  getCelRect : Z -> Z -> Z -> Z -> Z -> Rect;
  getCelScaledRect : Z -> Z -> Z -> Z -> Z -> Z -> Z -> Rect;
  getCelSpecialHoyle4Rect : Z -> Z -> Z -> Z -> Z -> Rect -> Rect
}.

(** The rest of the engine: view cache, ports, game identity and version,
    the fast-cast detection result of [init], and the script methods
    [doit] and [delete_] that [invokeSelector] runs (they may change any part
    of the engine state). *)
Record Env := mkEnv {
  getView : Z -> GfxView;
  kernelCoordinateToPriority : Z -> Z;
  kernelPriorityToCoordinate : Z -> Z;
  portRectBottom : Z -> Z;
  picWind : Z;
  gameIsHoyle4 : bool;
  sciVersion : Z;
  fastCastEnabled : bool;
  doit : Z -> St -> St;
  delete_ : Z -> St -> St
}.

(** Modelled from the spec: [SegManager::lookupNode] (sci/engine/seg_manager.cpp,
    not in this excerpt), the node-by-handle lookup with an allow-missing
    mode: a null address gives no node; a missing node is an error unless
    [stopOnDiscarded] is false, in which case it gives no node. *)
Definition lookupNode (addr : Z) (stopOnDiscarded : bool) : M (option Node) :=
  fun st =>
    if addr =? 0 then Ok None st
    else match st_nodes st addr with
         | Some n => Ok (Some n) st
         | None => if stopOnDiscarded then Err "Attempt to use invalid reference"%string
                   else Ok None st
         end.

(** [SegManager::lookupList]: the first node address of a list, if any. *)
Definition lookupList (addr : Z) : M (option Z) := fun st => Ok (st_lists st addr) st.

(** [GfxPaint16::bitsSave]: the painter hands out a fresh handle. *)
Definition bitsSave (r : Rect) (mask : Z) : M Z :=
  fun st =>
    let h := st_nextHandle st in
    Ok h (upd_nextHandle (upd_log st (st_log st ++ [EvBitsSave r mask h])) (h + 1)).

Section Animate.

Variable env : Env.

(** ** List building and sorting *)

Definition sortHelper (entry1 entry2 : AnimateEntry) : bool :=
  if y entry1 =? y entry2 then
    if z entry1 =? z entry2 then givenOrderNo entry1 <? givenOrderNo entry2
    else z entry1 <? z entry2
  else y entry1 <? y entry2.

(** Modelled from the spec: [Common::sort] (common/algorithm.h, not in this
    excerpt) sorts by the strict weak order it is given; the spec asks for
    an ordering by that single comparator. Insertion sort by [sortHelper]. *)
Fixpoint sort_insert (e : AnimateEntry) (l : list AnimateEntry) : list AnimateEntry :=
  match l with
  | [] => [e]
  | h :: t => if sortHelper h e then h :: sort_insert e t else e :: h :: t
  end.

Fixpoint Common_sort (l : list AnimateEntry) : list AnimateEntry :=
  match l with
  | [] => []
  | h :: t => sort_insert h (Common_sort t)
  end.

(** One list entry of [makeSortedList], read from the node's object. *)
Definition readEntry (listNr curObject : Z) : M AnimateEntry :=
  fun st =>
    let rd s := st_store st curObject s in
    let ss := if sciVersion env >=? SCI_VERSION_1_1 then wrapU16 (rd SelScaleSignal) else 0 in
    let scaled := (sciVersion env >=? SCI_VERSION_1_1) && has ss kScaleSignalDoScaling in
    let sx := if scaled then wrap16 (rd SelScaleX) else 128 in
    let sy := if scaled then wrap16 (rd SelScaleY) else 128 in
    Ok (mkEntry listNr curObject 0 (rd SelView) (wrap16 (rd SelLoop)) (wrap16 (rd SelCel))
          (wrap16 (rd SelPalette)) (wrap16 (rd SelX)) (wrap16 (rd SelY)) (wrap16 (rd SelZ))
          (wrap16 (rd SelPriority)) (wrapU16 (rd SelSignal)) ss sx sy
          (mkRect 0 0 0 0) false) st.

(** The fill loop of [makeSortedList]; [listNr] is an [int16]. The walk is
    bounded by [fuel] (a cyclic list never ends in the source). *)
Fixpoint fillList (fuel : nat) (listNr : Z) (curNode : option Node) : M (list AnimateEntry) :=
  match curNode with
  | None => ret []
  | Some n =>
      match fuel with
      | O => fail "out of fuel"
      | S f =>
          e <- readEntry listNr (value n) ;;
          next <- lookupNode (succ n) true ;;
          rest <- fillList f (wrap16 (listNr + 1)) next ;;
          ret (e :: rest)
      end
  end.

(** The entries of the list, in traversal order, before the sort. *)
Definition castEntries (fuel : nat) (first : Z) : M (list AnimateEntry) :=
  curNode <- lookupNode first true ;;
  fillList fuel 0 curNode.

Definition clearLists (st : St) : St := upd_lastCast (upd_list st []) [].

Definition makeSortedList (fuel : nat) (first : Z) : M unit :=
  modify clearLists ;;;
  l <- castEntries fuel first ;;
  modify (fun st => upd_list st (Common_sort l)).

(** ** Geometry: [adjustInvalidCels], [processViewScaling], [setNsRect] *)

Definition adjustInvalidCels (view : GfxView) (it : AnimateEntry) : M AnimateEntry :=
  let viewLoopCount := wrap16 (getLoopCount view) in
  it1 <- (if viewLoopCount <=? loopNo it then
            writeSelector (object it) SelLoop 0 ;;; ret (set_loopNo it 0)
          else if loopNo it <? 0 then
            ret (set_loopNo it (wrap16 (viewLoopCount - 1)))
          else ret it) ;;
  let viewCelCount := wrap16 (getCelCount view (loopNo it1)) in
  if viewCelCount <=? celNo it1 then
    writeSelector (object it1) SelCel 0 ;;; ret (set_celNo it1 0)
  else if celNo it1 <? 0 then
    ret (set_celNo it1 (wrap16 (viewCelCount - 1)))
  else ret it1.

Definition applyGlobalScaling (entry : AnimateEntry) (view : GfxView) : M AnimateEntry :=
  maxScale0 <- readSelector (object entry) SelMaxScale ;;
  let maxScale := wrap16 maxScale0 in
  let celHeight := wrap16 (getHeight view (loopNo entry) (celNo entry)) in
  let maxCelHeight := wrap16 (Z.shiftr (maxScale * celHeight) 7) in
  st <- get ;;
  let globalVar2 := st_globals st kGlobalVarCurrentRoom in
  vanishingY0 <- readSelector globalVar2 SelVanishingY ;;
  let vanishingY := wrap16 vanishingY0 in
  let fixedPortY := wrap16 (portRectBottom env (st_port st) - vanishingY) in
  let fixedEntryY0 := wrap16 (y entry - vanishingY) in
  let fixedEntryY := if fixedEntryY0 =? 0 then 1 else fixedEntryY0 in
  if (celHeight =? 0) || (fixedPortY =? 0) then fail "global scaling panic"
  else
    let sy1 := wrap16 (Z.quot (maxCelHeight * fixedEntryY) fixedPortY) in
    let sy := wrap16 (Z.quot (sy1 * 128) celHeight) in
    let entry' := set_scaling entry (scaleSignal entry) sy sy in
    writeSelector (object entry') SelScaleX (scaleX entry') ;;;
    writeSelector (object entry') SelScaleY (scaleY entry') ;;;
    ret entry'.

Definition processViewScaling (view : GfxView) (it : AnimateEntry) : M AnimateEntry :=
  if negb (isScaleable view) then ret (set_scaling it 0 128 128)
  else if has (scaleSignal it) kScaleSignalDoScaling then
    if has (scaleSignal it) kScaleSignalGlobalScaling then applyGlobalScaling it view
    else ret it
  else ret it.

(** [GfxCompare::getNSRect] / [setNSRect]: the object's nsRect selectors. *)
Definition getNSRect (o : Z) : M Rect :=
  t <- readSelector o SelNsTop ;; l <- readSelector o SelNsLeft ;;
  b <- readSelector o SelNsBottom ;; r <- readSelector o SelNsRight ;;
  ret (mkRect t l b r).
Definition setNSRect (o : Z) (r : Rect) : M unit :=
  writeSelector o SelNsLeft (left r) ;;; writeSelector o SelNsTop (top r) ;;;
  writeSelector o SelNsRight (right r) ;;; writeSelector o SelNsBottom (bottom r).

Definition setNsRect (view : GfxView) (it : AnimateEntry) : M AnimateEntry :=
  let lp := loopNo it in let cl := celNo it in
  '(it', shouldSetNsRect) <-
    (if has (scaleSignal it) kScaleSignalDoScaling then
       let it' := set_celRect it (getCelScaledRect view lp cl (x it) (y it) (z it) (scaleX it) (scaleY it)) in
       ret (it', negb (has (signal it) kSignalHidden && negb (has (signal it) kSignalAlwaysUpdate)))
     else if gameIsHoyle4 env && has (scaleSignal it) kScaleSignalHoyle4SpecialHandling then
       r0 <- getNSRect (object it) ;;
       ret (set_celRect it (getCelSpecialHoyle4Rect view lp cl (x it) (y it) (z it) r0), false)
     else ret (set_celRect it (getCelRect view lp cl (x it) (y it) (z it)), true)) ;;
  (if shouldSetNsRect then setNSRect (object it') (celRect it') else ret tt) ;;;
  ret it'.

(** The signal bookkeeping at the end of one iteration of [fill]: the new
    counter value and the new signal. *)
Definition fill_signal (old_picNotValid s : Z) : Z * Z :=
  if has s kSignalNoUpdate then
    let c := if has s (Z.lor kSignalForceUpdate kSignalViewUpdated)
                || (has s kSignalHidden && negb (has s kSignalRemoveView))
                || (negb (has s kSignalHidden) && has s kSignalRemoveView)
                || has s kSignalAlwaysUpdate
             then wrapU8 (old_picNotValid + 1) else old_picNotValid in
    (c, Z.land s (Z.lnot kSignalStopUpdate))
  else
    let c := if has s kSignalStopUpdate || has s kSignalAlwaysUpdate
             then wrapU8 (old_picNotValid + 1) else old_picNotValid in
    (c, Z.land s (Z.lnot kSignalForceUpdate)).

Definition fill_one (old_picNotValid : Z) (it : AnimateEntry) : M (Z * AnimateEntry) :=
  let view := getView env (viewId it) in
  it1 <- adjustInvalidCels view it ;;
  it2 <- processViewScaling view it1 ;;
  it3 <- setNsRect view it2 ;;
  it4 <- (if negb (has (signal it3) kSignalFixedPriority) then
            let p := wrap16 (kernelCoordinateToPriority env (y it3)) in
            writeSelector (object it3) SelPriority p ;;; ret (set_priority it3 p)
          else ret it3) ;;
  let '(c, s) := fill_signal old_picNotValid (signal it4) in
  ret (c, set_signal it4 s).

Fixpoint fill_list (old_picNotValid : Z) (l : list AnimateEntry) : M (Z * list AnimateEntry) :=
  match l with
  | [] => ret (old_picNotValid, [])
  | it :: t =>
      '(c, it') <- fill_one old_picNotValid it ;;
      '(c', t') <- fill_list c t ;;
      ret (c', it' :: t')
  end.

(** [fill(byte &old_picNotValid)]: returns the new counter value. *)
Definition fill (old_picNotValid : Z) : M Z :=
  st <- get ;;
  '(c, l) <- fill_list old_picNotValid (st_list st) ;;
  modify (fun st => upd_list st l) ;;;
  ret c.

(** ** [update]: the four signal passes *)

(** The priority-marker strip stencilled under a drawn cel. *)
Definition markerRect (it : AnimateEntry) : Rect :=
  let r := celRect it in
  mkRect (CLIP (wrap16 (kernelPriorityToCoordinate env (priority it) - 1))
               (top r) (wrap16 (bottom r - 1)))
         (left r) (bottom r) (right r).

Definition drawCelEv (it : AnimateEntry) : Event :=
  EvDrawCel (viewId it) (loopNo it) (celNo it) (celRect it) (priority it)
            (paletteNo it) (scaleX it) (scaleY it).

(** Pass 1, one entry: remove a no-update cel. *)
Definition update_remove (it : AnimateEntry) : M AnimateEntry :=
  if has (signal it) kSignalNoUpdate then
    it1 <- (if negb (has (signal it) kSignalRemoveView) then
              bitsHandle <- readSelector (object it) SelUnderBits ;;
              st <- get ;;
              it' <- (if negb (st_picNotValid st =? 1) then
                        emit (EvBitsRestore bitsHandle) ;;; ret (set_showBits it true)
                      else emit (EvBitsFree bitsHandle) ;;; ret it) ;;
              writeSelector (object it') SelUnderBits 0 ;;;
              ret it'
            else ret it) ;;
    let s := Z.land (signal it1) (Z.lnot kSignalForceUpdate) in
    let s := if has s kSignalViewUpdated
             then Z.land s (Z.lnot (Z.lor kSignalViewUpdated kSignalNoUpdate)) else s in
    ret (set_signal it1 s)
  else if has (signal it) kSignalStopUpdate then
    ret (set_signal it (Z.lor (Z.land (signal it) (Z.lnot kSignalStopUpdate)) kSignalNoUpdate))
  else ret it.

(** Pass 1 iterates from the last entry to the first. *)
Fixpoint update_pass1 (l : list AnimateEntry) : M (list AnimateEntry) :=
  match l with
  | [] => ret []
  | it :: t => t' <- update_pass1 t ;; it' <- update_remove it ;; ret (it' :: t')
  end.

(** Pass 2, one entry: draw an always-update cel. *)
Definition update_always (it : AnimateEntry) : M AnimateEntry :=
  if has (signal it) kSignalAlwaysUpdate then
    emit (drawCelEv it) ;;;
    let it1 := set_signal (set_showBits it true)
                 (Z.land (signal it) (Z.lnot (Z.lor (Z.lor kSignalStopUpdate kSignalViewUpdated)
                                                   (Z.lor kSignalNoUpdate kSignalForceUpdate)))) in
    (if negb (has (signal it1) kSignalIgnoreActor) then
       emit (EvFillRect (markerRect it1) GFX_SCREEN_MASK_CONTROL 0 0 15)
     else ret tt) ;;;
    ret it1
  else ret it.

(** Pass 3, one entry: save the background of a no-update cel. *)
Definition update_save (it : AnimateEntry) : M AnimateEntry :=
  if has (signal it) kSignalNoUpdate then
    if has (signal it) kSignalHidden then
      ret (set_signal it (Z.lor (signal it) kSignalRemoveView))
    else
      let it1 := set_signal it (Z.land (signal it) (Z.lnot kSignalRemoveView)) in
      bitsHandle <- (if has (signal it1) kSignalIgnoreActor
                     then bitsSave (celRect it1) (Z.lor GFX_SCREEN_MASK_VISUAL GFX_SCREEN_MASK_PRIORITY)
                     else bitsSave (celRect it1) GFX_SCREEN_MASK_ALL) ;;
      writeSelector (object it1) SelUnderBits bitsHandle ;;;
      ret it1
  else ret it.

(** Pass 4, one entry: draw a no-update cel. *)
Definition update_drawNoUpdate (it : AnimateEntry) : M AnimateEntry :=
  if has (signal it) kSignalNoUpdate && negb (has (signal it) kSignalHidden) then
    emit (drawCelEv it) ;;;
    let it1 := set_showBits it true in
    (if negb (has (signal it1) kSignalIgnoreActor) then
       emit (EvFillRect (markerRect it1) GFX_SCREEN_MASK_CONTROL 0 0 15)
     else ret tt) ;;;
    ret it1
  else ret it.

(** A forward pass over the list. *)
Fixpoint forward (f : AnimateEntry -> M AnimateEntry) (l : list AnimateEntry)
  : M (list AnimateEntry) :=
  match l with
  | [] => ret []
  | it :: t => it' <- f it ;; t' <- forward f t ;; ret (it' :: t')
  end.

Definition update_pass2 := forward update_always.
Definition update_pass3 := forward update_save.
Definition update_pass4 := forward update_drawNoUpdate.

Definition update : M unit :=
  st <- get ;;
  l1 <- update_pass1 (st_list st) ;;
  l2 <- update_pass2 l1 ;;
  l3 <- update_pass3 l2 ;;
  l4 <- update_pass4 l3 ;;
  modify (fun st => upd_list st l4).

(** ** [drawCels] *)

Definition drawCels_one (it : AnimateEntry) : M AnimateEntry :=
  if negb (has (signal it) (Z.lor (Z.lor kSignalNoUpdate kSignalHidden) kSignalAlwaysUpdate)) then
    bitsHandle <- bitsSave (celRect it) GFX_SCREEN_MASK_ALL ;;
    writeSelector (object it) SelUnderBits bitsHandle ;;;
    emit (EvDrawCelScaled (viewId it) (loopNo it) (celNo it) (celRect it) (priority it)
            (paletteNo it) (scaleX it) (scaleY it) (scaleSignal it)) ;;;
    let it1 := set_showBits it true in
    let it2 := if has (signal it1) kSignalRemoveView
               then set_signal it1 (Z.land (signal it1) (Z.lnot kSignalRemoveView)) else it1 in
    modify (fun st => upd_lastCast st (st_lastCast st ++ [it2])) ;;;
    ret it2
  else ret it.

Definition drawCels : M unit :=
  modify (fun st => upd_lastCast st []) ;;;
  st <- get ;;
  l <- forward drawCels_one (st_list st) ;;
  modify (fun st => upd_list st l).

(** ** [updateScreen] *)

Definition updateScreen_one (oldPicNotValid : Z) (it : AnimateEntry) : M AnimateEntry :=
  let s := signal it in
  if showBitsFlag it
     || negb (has s (Z.lor kSignalRemoveView kSignalNoUpdate)
              || (negb (has s kSignalRemoveView) && has s kSignalNoUpdate
                  && negb (oldPicNotValid =? 0)))
  then
    l <- readSelector (object it) SelLsLeft ;; t <- readSelector (object it) SelLsTop ;;
    r <- readSelector (object it) SelLsRight ;; b <- readSelector (object it) SelLsBottom ;;
    let lsRect := mkRect (wrap16 t) (wrap16 l) (wrap16 b) (wrap16 r) in
    workerRect <- (if negb (rect_isEmpty (rect_clip lsRect (celRect it)))
                   then ret (rect_extend lsRect (celRect it))
                   else emit (EvBitsShow lsRect) ;;; ret (celRect it)) ;;
    writeSelector (object it) SelLsLeft (left (celRect it)) ;;;
    writeSelector (object it) SelLsTop (top (celRect it)) ;;;
    writeSelector (object it) SelLsRight (right (celRect it)) ;;;
    writeSelector (object it) SelLsBottom (bottom (celRect it)) ;;;
    emit (EvBitsShow workerRect) ;;;
    ret (if has s kSignalHidden then set_signal it (Z.lor s kSignalRemoveView) else it)
  else ret it.

Definition updateScreen (oldPicNotValid : Z) : M unit :=
  st <- get ;;
  l <- forward (updateScreen_one oldPicNotValid) (st_list st) ;;
  modify (fun st => upd_list st l).

(** ** [restoreAndDelete] *)

(** First loop: write every entry's signal back, first to last. *)
Fixpoint writeSignals (l : list AnimateEntry) : M unit :=
  match l with
  | [] => ret tt
  | it :: t => writeSelector (object it) SelSignal (signal it) ;;; writeSignals t
  end.

(** Second loop, one entry: re-read the signal, restore, dispose. *)
Definition restoreAndDelete_one (it : AnimateEntry) : M AnimateEntry :=
  s0 <- readSelector (object it) SelSignal ;;
  let it1 := set_signal it (wrapU16 s0) in
  (if Z.land (signal it1) (Z.lor kSignalNoUpdate kSignalRemoveView) =? 0 then
     h <- readSelector (object it1) SelUnderBits ;;
     emit (EvBitsRestore h) ;;;
     writeSelector (object it1) SelUnderBits 0
   else ret tt) ;;;
  (if has (signal it1) kSignalDisposeMe then
     emit (EvInvokeDelete (object it1)) ;;;
     modify (delete_ env (object it1))
   else ret tt) ;;;
  ret it1.

(** The second loop goes from the last entry to the first. *)
Fixpoint restorePass (l : list AnimateEntry) : M (list AnimateEntry) :=
  match l with
  | [] => ret []
  | it :: t => t' <- restorePass t ;; it' <- restoreAndDelete_one it ;; ret (it' :: t')
  end.

Definition restoreAndDelete : M unit :=
  st <- get ;;
  writeSignals (st_list st) ;;;
  l <- restorePass (st_list st) ;;
  modify (fun st => upd_list st l).

(** ** [reAnimate] *)

Fixpoint reAnimate_save (l : list AnimateEntry) : M (list AnimateEntry) :=
  match l with
  | [] => ret []
  | it :: t =>
      h <- bitsSave (celRect it) (Z.lor GFX_SCREEN_MASK_VISUAL GFX_SCREEN_MASK_PRIORITY) ;;
      let it1 := set_castHandle it h in
      emit (drawCelEv it1) ;;;
      t' <- reAnimate_save t ;;
      ret (it1 :: t')
  end.

(** Restoring walks back from the end of the array to its beginning. *)
Fixpoint reAnimate_restore (l : list AnimateEntry) : M unit :=
  match l with
  | [] => ret tt
  | it :: t => reAnimate_restore t ;;; emit (EvBitsRestore (castHandle it))
  end.

Definition reAnimate (rect : Rect) : M unit :=
  st <- get ;;
  match st_lastCast st with
  | [] => emit (EvBitsShow rect)
  | l =>
      l' <- reAnimate_save l ;;
      modify (fun st => upd_lastCast st l') ;;;
      emit (EvBitsShow rect) ;;;
      reAnimate_restore l'
  end.

(** ** [invoke]: run the [doit] method of every list object *)

(** The [while (curNode)] loop of [invoke]; [false] tells [kernelAnimate]
    to stop, [true] to go on. *)
Fixpoint invoke_loop (fuel : nat) (curAddress : Z) (curNode : option Node) : M bool :=
  match curNode with
  | None => ret true
  | Some n =>
      match fuel with
      | O => fail "out of fuel"
      | S f =>
          let curObject := value n in
          let next (cn : option Node) : M bool :=
            match cn with
            | None => ret true
            | Some n' =>
                let curAddress' := succ n' in
                nn <- lookupNode curAddress' true ;;
                invoke_loop f curAddress' nn
            end in
          st <- get ;;
          if fastCastEnabled env && negb (st_globals st kGlobalVarFastCast =? 0) then ret false
          else
            sig <- readSelector curObject SelSignal ;;
            if negb (has (wrapU16 sig) kSignalFrozen) then
              emit (EvInvokeDoit curObject) ;;;
              modify (doit env curObject) ;;;
              st' <- get ;;
              if negb (st_abort st' =? kAbortNone) then ret true
              else cn <- lookupNode curAddress false ;; next cn
            else next (Some n)
      end
  end.

Definition invoke (fuel : nat) (first : Z) : M bool :=
  curNode <- lookupNode first true ;;
  invoke_loop fuel first curNode.

(** ** [kernelAnimate] *)

(** [animateShowPic]: the picture transition. The cursor and
    [GfxTransitions::doit] are external; the call is recorded, and the
    transition, which shows the whole picture, ends by resetting
    [_screen->_picNotValid] to 0. *)
Definition animateShowPic : M unit :=
  emit EvShowPic ;;; modify (fun st => upd_picNotValid st 0).

(** The start of [kernelAnimate], up to the null-list test: returns the
    [byte old_picNotValid]. *)
Definition kernelAnimate_prologue : M Z :=
  st0 <- get ;;
  (if negb (st_picNotValid st0 =? 0) then emit EvPalVaryDelay else ret tt) ;;;
  st1 <- get ;;
  let old_picNotValid := wrapU8 (st_picNotValid st1) in
  (if sciVersion env >=? SCI_VERSION_1_1 then emit EvPalVaryUpdate else ret tt) ;;;
  ret old_picNotValid.

(** The frame itself, from [setPort] on, for the list looked up last. *)
Definition kernelAnimate_frame (fuel : nat) (old_picNotValid : Z) (lst : option Z) : M unit :=
  match lst with
  | None => fail "null list"
  | Some first =>
      st2 <- get ;;
      let oldPort := st_port st2 in
      modify (fun st => upd_port st (picWind env)) ;;;
      modify (fun st => upd_lastCast st []) ;;;
      makeSortedList fuel first ;;;
      c <- fill old_picNotValid ;;
      (if negb (c =? 0) then
         (if sciVersion env >=? SCI_VERSION_1_EGA_ONLY then emit EvBeginUpdate else ret tt) ;;;
         update ;;;
         (if sciVersion env >=? SCI_VERSION_1_EGA_ONLY then emit EvEndUpdate else ret tt)
       else ret tt) ;;;
      drawCels ;;;
      st3 <- get ;;
      (if negb (st_picNotValid st3 =? 0) then animateShowPic else ret tt) ;;;
      updateScreen c ;;;
      restoreAndDelete ;;;
      emit EvEventsUpdateScreen ;;;
      modify (fun st => upd_port st oldPort) ;;;
      modify (fun st => upd_throttle st true)
  end.

Definition kernelAnimate (fuel : nat) (listReference : Z) (cycle : bool) : M unit :=
  old_picNotValid <- kernelAnimate_prologue ;;
  if listReference =? 0 then
    modify (fun st => upd_lastCast st []) ;;;
    st2 <- get ;;
    (if negb (st_picNotValid st2 =? 0) then animateShowPic else ret tt)
  else
    lst <- lookupList listReference ;;
    match lst with
    | None => fail "kAnimate called with non-list as parameter"
    | Some first =>
        if cycle then
          b <- invoke fuel first ;;
          if b then
            (* look the list up again, it may have been modified *)
            lst' <- lookupList listReference ;;
            kernelAnimate_frame fuel old_picNotValid lst'
          else ret tt
        else kernelAnimate_frame fuel old_picNotValid (Some first)
    end.

(** ** [kAddToPic] *)

(** One iteration of [addToPicDrawCels]. There are no loop/cel-number
    fixups; the cel is drawn through the view of [viewId]. *)
Definition addToPicDrawCels_one (it : AnimateEntry) : M AnimateEntry :=
  let curObject := object it in
  let view := getView env (viewId it) in
  let it1 := if priority it =? -1
             then set_priority it (wrap16 (kernelCoordinateToPriority env (y it))) else it in
  let it2 := if negb (isScaleable view) then set_scaling it1 0 128 128 else it1 in
  it3 <- (if has (scaleSignal it2) kScaleSignalDoScaling then
            it2' <- (if has (scaleSignal it2) kScaleSignalGlobalScaling
                     then applyGlobalScaling it2 view else ret it2) ;;
            let it3 := set_celRect it2' (getCelScaledRect view (loopNo it2') (celNo it2')
                         (x it2') (y it2') (z it2') (scaleX it2') (scaleY it2')) in
            setNSRect curObject (celRect it3) ;;;
            ret it3
          else ret (set_celRect it2 (getCelRect view (loopNo it2) (celNo it2)
                                       (x it2) (y it2) (z it2)))) ;;
  emit (drawCelEv it3) ;;;
  if negb (has (signal it3) kSignalIgnoreActor) then
    let it4 := set_celRect it3 (markerRect it3) in
    emit (EvFillRect (celRect it4) GFX_SCREEN_MASK_CONTROL 0 0 15) ;;;
    ret it4
  else ret it3.

Definition addToPicDrawCels : M unit :=
  st <- get ;;
  l <- forward addToPicDrawCels_one (st_list st) ;;
  modify (fun st => upd_list st l).

(** [addToPicDrawView]: [drawCel] with palette 0 and the default scale
    128/128; the control strip only when [control] is not -1. *)
Definition addToPicDrawView (viewId loopNo celNo x y priority control : Z) : M unit :=
  let view := getView env viewId in
  let priority := if priority =? -1
                  then wrap16 (kernelCoordinateToPriority env y) else priority in
  let celRect := getCelRect view loopNo celNo x y 0 in
  emit (EvDrawCel viewId loopNo celNo celRect priority 0 128 128) ;;;
  if negb (control =? -1) then
    let celRect' := mkRect (CLIP (wrap16 (kernelPriorityToCoordinate env priority - 1))
                                 (top celRect) (wrap16 (bottom celRect - 1)))
                           (left celRect) (bottom celRect) (right celRect) in
    emit (EvFillRect celRect' GFX_SCREEN_MASK_CONTROL 0 0 control)
  else ret tt.

Definition addToPicSetPicNotValid : M unit :=
  modify (fun st => upd_picNotValid st
                      (if sciVersion env <=? SCI_VERSION_1_EARLY then 1 else 2)).

Definition kernelAddToPicList (fuel : nat) (listReference : Z) : M unit :=
  modify (fun st => upd_port st (picWind env)) ;;;
  lst <- lookupList listReference ;;
  match lst with
  | None => fail "kAddToPic called with non-list as parameter"
  | Some first =>
      makeSortedList fuel first ;;;
      addToPicDrawCels ;;;
      addToPicSetPicNotValid
  end.

Definition kernelAddToPicView (viewId loopNo celNo x y priority control : Z) : M unit :=
  modify (fun st => upd_port st (picWind env)) ;;;
  addToPicDrawView viewId loopNo celNo x y priority control ;;;
  addToPicSetPicNotValid.

(** ** [init] *)

(** [init]; the result of the script-signature search [detectFastCast] is
    its argument. Returns the new [_fastCastEnabled]. *)
Definition init (detectFastCast : bool) : M bool :=
  modify (fun st => upd_lastCast st []) ;;;
  ret (if sciVersion env =? SCI_VERSION_1_1 then true
       else if sciVersion env >=? SCI_VERSION_1_EARLY then detectFastCast else false).

End Animate.

(** ** Concrete configurations used by the examples *)

Definition store0 : Z -> Sel -> Z := fun _ _ => 0.

Definition st_init (store : Z -> Sel -> Z) (nodes : Z -> option Node) (lists : Z -> option Z)
  (globals : Z -> Z) (pnv : Z) (l : list AnimateEntry) : St :=
  mkSt store nodes lists globals kAbortNone pnv 1 l [] [] 100 false.

(** A view with 4 loops of 3 cels, 40 pixels high. *)
Definition view0 : GfxView :=
  mkView 4 (fun _ => 3) (fun _ _ => 40) true
    (fun _ _ x y _ => mkRect (y - 40) (x - 5) y (x + 5))
    (fun _ _ x y _ _ _ => mkRect (y - 20) (x - 3) y (x + 3))
    (fun _ _ _ _ _ r => r).

Definition env_with (ver : Z) (fc : bool) (dt dl : Z -> St -> St) : Env :=
  mkEnv (fun _ => view0) (fun y => y / 16) (fun p => p * 16) (fun _ => 200) 7 false ver fc dt dl.

Definition env0 : Env := env_with SCI_VERSION_1_1 false (fun _ st => st) (fun _ st => st).

(** Objects 1, 2, 3 in a list at address 50, through nodes 11, 12, 13. *)
Definition nodes3 (a : Z) : option Node :=
  if a =? 11 then Some (mkNode 1 12) else if a =? 12 then Some (mkNode 2 13)
  else if a =? 13 then Some (mkNode 3 0) else None.
Definition lists3 (a : Z) : option Z := if a =? 50 then Some 11 else None.

(** All three objects at y = 10, z = 5. *)
Definition store3 : Z -> Sel -> Z :=
  fun o s => match s with SelY => 10 | SelZ => 5 | SelView => o | _ => 0 end.

Definition st3 : St := st_init store3 nodes3 lists3 (fun _ => 0) 0 [].

Definition resultList {A} (r : Result A) : list AnimateEntry :=
  match r with Ok _ st => st_list st | Err _ => [] end.

Example makeSortedList_ABC :
  map object (resultList (makeSortedList env0 10 11 st3)) = [1; 2; 3].
Proof. vm_compute. reflexivity. Qed.

(** ** Entry-level summaries of the update passes *)

(** The entry produced by pass 1 for one cast entry, at picture state [pnv]. *)
Definition remove_entry (pnv : Z) (e : AnimateEntry) : AnimateEntry :=
  let s := signal e in
  if has s kSignalNoUpdate then
    let e1 := if negb (has s kSignalRemoveView) && negb (pnv =? 1) then set_showBits e true else e in
    let s1 := Z.land s (Z.lnot kSignalForceUpdate) in
    let s2 := if has s1 kSignalViewUpdated
              then Z.land s1 (Z.lnot (Z.lor kSignalViewUpdated kSignalNoUpdate)) else s1 in
    set_signal e1 s2
  else if has s kSignalStopUpdate then
    set_signal e (Z.lor (Z.land s (Z.lnot kSignalStopUpdate)) kSignalNoUpdate)
  else e.

(** The entry produced by pass 2 for one entry. *)
Definition always_entry (e : AnimateEntry) : AnimateEntry :=
  if has (signal e) kSignalAlwaysUpdate then
    set_signal (set_showBits e true)
      (Z.land (signal e) (Z.lnot (Z.lor (Z.lor kSignalStopUpdate kSignalViewUpdated)
                                         (Z.lor kSignalNoUpdate kSignalForceUpdate))))
  else e.

(** The events pass 2 emits for one entry. *)
Definition always_events (env : Env) (e : AnimateEntry) : list Event :=
  if has (signal e) kSignalAlwaysUpdate then
    drawCelEv e ::
      (if negb (has (signal (always_entry e)) kSignalIgnoreActor)
       then [EvFillRect (markerRect env (always_entry e)) GFX_SCREEN_MASK_CONTROL 0 0 15]
       else [])
  else [].

(** A cel of object 1 with StopUpdate and AlwaysUpdate set. *)
Definition entrySA : AnimateEntry :=
  mkEntry 0 1 0 1 0 0 0 10 20 0 5 33 0 128 128 (mkRect 0 5 20 15) false.

(** Pass 1 over the prefix [pre] of a list, once the suffix has produced [acc]. *)
Fixpoint update_pass1_onto (pre : list AnimateEntry) (acc : list AnimateEntry) : M (list AnimateEntry) :=
  match pre with
  | [] => ret acc
  | it :: t => t' <- update_pass1_onto t acc ;; it' <- update_remove it ;; ret (it' :: t')
  end.

(** The state change of pass 1 on one no-update entry at picture state [pnv]. *)
Definition pass1_effect (pnv : Z) (e : AnimateEntry) (st : St) : St :=
  if has (signal e) kSignalRemoveView then st
  else
    let h := st_store st (object e) SelUnderBits in
    upd_store (upd_log st (st_log st ++ [if pnv =? 1 then EvBitsFree h else EvBitsRestore h]))
      (store_write (st_store st) (object e) SelUnderBits 0).

(** A cel of object 1 with NoUpdate set. *)
Definition entryNU : AnimateEntry :=
  mkEntry 0 1 0 1 0 0 0 10 20 0 5 4 0 128 128 (mkRect 0 5 20 15) false.

(** [st3] with the picture marked invalid at level 2. *)
Definition stPNV2 : St := st_init store3 nodes3 lists3 (fun _ => 0) 2 [].

(** A cel of object 1 whose loop (9) and cel (-1) are both out of range. *)
Definition entryLoop9 : AnimateEntry :=
  mkEntry 0 1 0 1 9 (-1) 0 10 20 0 5 0 0 128 128 (mkRect 0 5 20 15) false.

(** Whether a value fits a signed 16-bit integer. *)
Definition in_int16 (v : Z) : bool := (-32768 <=? v) && (v <=? 32767).

(** Selector store for the scaling examples: maxScale 128 on every object, vanishingY 100 on every room. *)
Definition storeScale : Z -> Sel -> Z :=
  fun o s => match s with SelMaxScale => 128 | SelVanishingY => 100 | _ => 0 end.

(** A state whose current-room global is object 7. *)
Definition stScale : St := st_init storeScale nodes3 lists3 (fun _ => 7) 0 [].

(** A cel of object 1 at vertical position [ypos], with DoScaling and GlobalScaling requested. *)
Definition entryAt (ypos : Z) : AnimateEntry :=
  mkEntry 0 1 0 1 0 0 0 10 ypos 0 5 0 3 128 128 (mkRect 0 5 20 15) false.

(** The selector store after the first loop of restoreAndDelete: every entry's signal written to its object, first entry first. *)
Definition signalsWritten (l : list AnimateEntry) (f : Z -> Sel -> Z) : Z -> Sel -> Z :=
  fold_left (fun f it => store_write f (object it) SelSignal (signal it)) l f.

(** The second loop of restoreAndDelete over the prefix [pre] of a list, once the suffix has produced [acc]. *)
Fixpoint restorePass_onto (env : Env) (pre acc : list AnimateEntry) : M (list AnimateEntry) :=
  match pre with
  | [] => ret acc
  | it :: t => t' <- restorePass_onto env t acc ;; it' <- restoreAndDelete_one env it ;; ret (it' :: t')
  end.

(** A cel of object [o] with signal [sig]. *)
Definition entryObj (o sig : Z) : AnimateEntry :=
  mkEntry 0 o 0 1 0 0 0 10 20 0 5 sig 0 128 128 (mkRect 0 5 20 15) false.

(** A delete_ method under which disposing object 2 sets DisposeMe in the signal of object 1. *)
Definition deleteSibling (o : Z) (st : St) : St :=
  if o =? 2 then upd_store st (store_write (st_store st) 1 SelSignal kSignalDisposeMe) else st.

Definition envSibling : Env :=
  env_with SCI_VERSION_1_1 false (fun _ st => st) deleteSibling.

(** Two cast entries: object 1 with signal 0, then object 2 with DisposeMe. *)
Definition stSibling : St :=
  st_init store0 nodes3 lists3 (fun _ => 0) 0 [entryObj 1 0; entryObj 2 kSignalDisposeMe].

(** The [n] consecutive bits handles from [h] on. *)
Fixpoint handlesFrom (h : Z) (n : nat) : list Z :=
  match n with O => [] | S n' => h :: handlesFrom (h + 1) n' end.

(** The snapshot entries with their castHandle set to consecutive handles from [h] on. *)
Fixpoint setHandles (h : Z) (l : list AnimateEntry) : list AnimateEntry :=
  match l with [] => [] | it :: t => set_castHandle it h :: setHandles (h + 1) t end.

(** The events of the save-and-draw loop of reAnimate, with handles from [h] on. *)
Fixpoint saveDrawEvents (h : Z) (l : list AnimateEntry) : list Event :=
  match l with
  | [] => []
  | it :: t =>
      EvBitsSave (celRect it) (Z.lor GFX_SCREEN_MASK_VISUAL GFX_SCREEN_MASK_PRIORITY) h
        :: drawCelEv it :: saveDrawEvents (h + 1) t
  end.

(** A state whose last-cast snapshot holds objects 1, 2 and 3. *)
Definition stXYZ : St :=
  upd_lastCast (st_init store0 nodes3 lists3 (fun _ => 0) 0 [])
    [entryObj 1 0; entryObj 2 0; entryObj 3 0].

(** A doit method that sets the abort flag, as loading a saved game does. *)
Definition doitAbort (o : Z) (st : St) : St :=
  mkSt (st_store st) (st_nodes st) (st_lists st) (st_globals st) 1 (st_picNotValid st)
    (st_port st) (st_list st) (st_lastCast st) (st_log st) (st_nextHandle st) (st_throttle st).

Definition envAbort : Env := env_with SCI_VERSION_1_1 false doitAbort (fun _ st => st).

(** The condition under which fill counts an entry, in the words of its description: NoUpdate with ForceUpdate, ViewUpdated, Hidden without RemoveView, RemoveView without Hidden, or AlwaysUpdate; or no NoUpdate with StopUpdate or AlwaysUpdate. *)
Definition fill_increments_spec (s : Z) : bool :=
  (has s kSignalNoUpdate &&
    (has s kSignalForceUpdate || has s kSignalViewUpdated
     || (has s kSignalHidden && negb (has s kSignalRemoveView))
     || (has s kSignalRemoveView && negb (has s kSignalHidden))
     || has s kSignalAlwaysUpdate))
  || (negb (has s kSignalNoUpdate) && (has s kSignalStopUpdate || has s kSignalAlwaysUpdate)).

(** A cast list of a NoUpdate entry (object 1) and a StopUpdate entry (object 2). *)
Definition stFill : St :=
  st_init store3 nodes3 lists3 (fun _ => 0) 0 [entryObj 1 kSignalNoUpdate; entryObj 2 kSignalStopUpdate].

(** A configuration with fast cast enabled. *)
Definition envFast : Env := env_with SCI_VERSION_1_1 true (fun _ st => st) (fun _ st => st).

(** [st3] with the fast-cast global set. *)
Definition stFast : St :=
  st_init store3 nodes3 lists3 (fun g => if g =? kGlobalVarFastCast then 1 else 0) 0 [].

(** An entry for object 1 with loop 9, cel -1 and priority -1 at y = 20. *)
Definition entryPic : AnimateEntry :=
  mkEntry 0 1 0 1 9 (-1) 0 10 20 0 (-1) 0 0 128 128 (mkRect 0 5 20 15) false.

(** A state whose working list holds [entryPic]. *)
Definition stPicList : St := st_init store3 nodes3 lists3 (fun _ => 0) 0 [entryPic].

(** Objects at y = 10, z = 5, loop 9 and priority 65535 (that is, -1 as an int16). *)
Definition storePic : Z -> Sel -> Z :=
  fun o s => match s with
             | SelY => 10 | SelZ => 5 | SelView => o | SelLoop => 9 | SelPriority => 65535
             | _ => 0 end.

(** The list at address 50 over storePic. *)
Definition stPic : St := st_init storePic nodes3 lists3 (fun _ => 0) 0 [].

(** Whether pass 3 of [update] saves the background of an entry (NoUpdate set, Hidden clear), and pass 4 draws it. *)
Definition saved (e : AnimateEntry) : bool :=
  has (signal e) kSignalNoUpdate && negb (has (signal e) kSignalHidden).

(** The [bitsSave] events pass 3 of [update] emits for a list, handles counted from [h]. *)
Fixpoint pass3_saves (h : Z) (l : list AnimateEntry) : list Event :=
  match l with
  | [] => []
  | e :: t =>
      if saved e then
        EvBitsSave (celRect e)
          (if has (signal e) kSignalIgnoreActor
           then Z.lor GFX_SCREEN_MASK_VISUAL GFX_SCREEN_MASK_PRIORITY else GFX_SCREEN_MASK_ALL) h
        :: pass3_saves (h + 1) t
      else pass3_saves h t
  end.

(** The events pass 4 of [update] emits for one entry. *)
Definition pass4_events (env : Env) (e : AnimateEntry) : list Event :=
  if saved e then
    drawCelEv e ::
      (if negb (has (signal e) kSignalIgnoreActor)
       then [EvFillRect (markerRect env e) GFX_SCREEN_MASK_CONTROL 0 0 15] else [])
  else [].

(** The entry pass 4 of [update] leaves. *)
Definition pass4_entry (e : AnimateEntry) : AnimateEntry :=
  if saved e then set_showBits e true else e.

(** Rectangle [a] lies inside rectangle [b]. *)
Definition rect_within (a b : Rect) : bool :=
  (top b <=? top a) && (left b <=? left a) && (bottom a <=? bottom b) && (right a <=? right b).

(** The last-shown rectangle [updateScreen] reads from an object's ls selectors. *)
Definition lsRect_of (st : St) (o : Z) : Rect :=
  mkRect (wrap16 (st_store st o SelLsTop)) (wrap16 (st_store st o SelLsLeft))
         (wrap16 (st_store st o SelLsBottom)) (wrap16 (st_store st o SelLsRight)).

(** Some [showBits] event of [evs] covers [r]. *)
Definition shown (evs : list Event) (r : Rect) : Prop :=
  exists r', In (EvBitsShow r') evs /\ rect_within r r' = true.

(** The entries [drawCels] draws: none of NoUpdate, Hidden and AlwaysUpdate set. *)
Definition drawable (e : AnimateEntry) : bool :=
  negb (has (signal e) (Z.lor (Z.lor kSignalNoUpdate kSignalHidden) kSignalAlwaysUpdate)).

(** The selectors [addToPicDrawCels] may write: the scale set by global scaling and the nsRect. *)
Definition addToPic_sel (s : Sel) : bool :=
  match s with
  | SelScaleX | SelScaleY | SelNsLeft | SelNsTop | SelNsRight | SelNsBottom => true
  | _ => false
  end.

(** Every selector outside [addToPic_sel] keeps its value. *)
Definition store_keeps (st st' : St) : Prop :=
  forall o s, addToPic_sel s = false -> st_store st' o s = st_store st o s.

(** What one step of [addToPicDrawCels] keeps. *)
Definition pic_keeps (st st' : St) : Prop :=
  store_keeps st st' /\ st_port st' = st_port st /\ st_lastCast st' = st_lastCast st.

(** How pass 3 of [update] changes one entry: only the RemoveView bit of a NoUpdate entry, set to its Hidden bit. *)
Definition pass3_rel (e e' : AnimateEntry) : Prop :=
  if has (signal e) kSignalNoUpdate then
    e' = set_signal e (signal e') /\
    has (signal e') kSignalRemoveView = has (signal e) kSignalHidden /\
    (forall k, 0 <= k -> k <> 7 -> Z.testbit (signal e') k = Z.testbit (signal e) k)
  else e' = e.

(** How [drawCels] changes one entry. *)
Definition drawn_rel (e e' : AnimateEntry) : Prop :=
  drawable e' = drawable e /\ object e' = object e /\
  (drawable e = true -> showBitsFlag e' = true /\ has (signal e') kSignalRemoveView = false).

(** The fields [makeSortedList] reads from no selector: no cast handle, nothing shown, an empty rectangle and, below SCI1.1, no scaling. *)
Definition fresh_entry (env : Env) (e : AnimateEntry) : Prop :=
  castHandle e = 0 /\ showBitsFlag e = false /\ celRect e = mkRect 0 0 0 0 /\
  (sciVersion env < SCI_VERSION_1_1 -> scaleSignal e = 0 /\ scaleX e = 128 /\ scaleY e = 128).

(** Every object of the cast that [invoke] walks from node [addr] has
    Frozen set: the nodes [invoke] visits with [fuel] steps, following
    [succ] from [addr] until a null or missing successor. *)
Fixpoint cast_frozen (fuel : nat) (st : St) (addr : Z) : bool :=
  if addr =? 0 then true
  else match st_nodes st addr with
       | None => true
       | Some n =>
           match fuel with
           | O => true
           | S f => has (wrapU16 (st_store st (value n) SelSignal)) kSignalFrozen
                    && cast_frozen f st (succ n)
           end
       end.

(** Objects 2 and 3 frozen, object 1 not, at y = 10, z = 5. *)
Definition storeFrozen : Z -> Sel -> Z :=
  fun o s => match s with
             | SelSignal => if o =? 1 then 0 else kSignalFrozen
             | SelY => 10 | SelZ => 5 | SelView => o | _ => 0 end.

(** The list of st3 over storeFrozen: the cast from node 12 (objects 2, 3) is frozen, node 11 (object 1) is not. *)
Definition stFrozen : St := st_init storeFrozen nodes3 lists3 (fun _ => 0) 0 [].

(** A state whose working list holds one entry with no signal bit set. *)
Definition stIdle : St := st_init store3 nodes3 lists3 (fun _ => 0) 0 [entryObj 1 0].

(** The loop and cel of an entry are valid indices of the view. *)
Definition cels_in_range (view : GfxView) (e : AnimateEntry) : Prop :=
  0 <= loopNo e < wrap16 (getLoopCount view) /\
  0 <= celNo e < wrap16 (getCelCount view (loopNo e)).

(** A view with at least one loop and at least one cel in each loop. *)
Definition view_nonempty (view : GfxView) : Prop :=
  0 < wrap16 (getLoopCount view) /\
  forall l, 0 <= l < wrap16 (getLoopCount view) -> 0 < wrap16 (getCelCount view l).

(** The fields [processViewScaling] and [setNsRect] keep. *)
Definition geom_keep (it it' : AnimateEntry) : Prop :=
  object it' = object it /\ viewId it' = viewId it /\ y it' = y it /\
  signal it' = signal it /\ priority it' = priority it /\
  loopNo it' = loopNo it /\ celNo it' = celNo it.

(** How [fill] changes one entry: same object, view and y, priority from y unless FixedPriority, loop and cel in range. *)
Definition fill_rel (env : Env) (e e' : AnimateEntry) : Prop :=
  object e' = object e /\ viewId e' = viewId e /\ y e' = y e /\
  priority e' = (if has (signal e) kSignalFixedPriority then priority e
                 else wrap16 (kernelCoordinateToPriority env (y e))) /\
  (view_nonempty (getView env (viewId e)) -> cels_in_range (getView env (viewId e)) e').

(** A state whose working list holds [entryLoop9] (loop 9, cel -1). *)
Definition stLoop9 : St := st_init store3 nodes3 lists3 (fun _ => 0) 0 [entryLoop9].

(** * Proofs *)

(** ** Tactics and general lemmas *)

Ltac zcases :=
  repeat match goal with
  | |- context [?a =? ?b] => destruct (Z.eqb_spec a b)
  | |- context [?a <? ?b] => destruct (Z.ltb_spec a b)
  | |- context [?a <=? ?b] => destruct (Z.leb_spec a b)
  | H : context [?a =? ?b] |- _ => destruct (Z.eqb_spec a b)
  | H : context [?a <? ?b] |- _ => destruct (Z.ltb_spec a b)
  | H : context [?a <=? ?b] |- _ => destruct (Z.leb_spec a b)
  end.

Lemma wrap16_id : forall v, -32768 <= v <= 32767 -> wrap16 v = v.
Proof.
  intros v Hv. unfold wrap16. rewrite Z.mod_small by lia. lia.
Qed.

Lemma wrap16_add_l : forall a b, wrap16 (wrap16 a + b) = wrap16 (a + b).
Proof.
  intros a b. unfold wrap16.
  replace ((a + 32768) mod 65536 - 32768 + b + 32768) with ((a + 32768) mod 65536 + b) by lia.
  rewrite Zplus_mod_idemp_l. f_equal. f_equal. lia.
Qed.

Lemma StronglySorted_nth : forall {A} (R : A -> A -> Prop) l p q a b,
  StronglySorted R l -> (p < q)%nat ->
  nth_error l p = Some a -> nth_error l q = Some b -> R a b.
Proof.
  intros A R l. induction l as [|h t IH]; intros p q a b Hs Hpq Ha Hb.
  - destruct p; discriminate.
  - apply StronglySorted_inv in Hs as [Hs Hall].
    destruct p as [|p], q as [|q]; simpl in *; try lia.
    + injection Ha as <-. rewrite Forall_forall in Hall. apply Hall.
      eapply nth_error_In; eauto.
    + apply (IH p q a b Hs); [lia | exact Ha | exact Hb].
Qed.

(** ** The comparator *)

(** The order in which the list is sorted. *)
Definition sort_le (a b : AnimateEntry) : Prop := sortHelper b a = false.

Lemma sortHelper_lex : forall a b,
  sortHelper a b = true <->
  y a < y b \/ (y a = y b /\ z a < z b)
  \/ (y a = y b /\ z a = z b /\ givenOrderNo a < givenOrderNo b).
Proof. intros a b. unfold sortHelper. zcases; split; intros; try lia; try discriminate; auto. Qed.

Lemma sortHelper_asym : forall a b, sortHelper a b = true -> sortHelper b a = false.
Proof.
  intros a b H. apply sortHelper_lex in H.
  destruct (sortHelper b a) eqn:E; [apply sortHelper_lex in E; lia | reflexivity].
Qed.

Lemma sort_le_trans : forall a b c, sort_le a b -> sort_le b c -> sort_le a c.
Proof.
  unfold sort_le. intros a b c H1 H2.
  destruct (sortHelper c a) eqn:E; [|reflexivity].
  apply sortHelper_lex in E.
  destruct (sortHelper b a) eqn:E1; [discriminate|].
  destruct (sortHelper c b) eqn:E2; [discriminate|].
  assert (~ (y b < y a \/ (y b = y a /\ z b < z a)
             \/ (y b = y a /\ z b = z a /\ givenOrderNo b < givenOrderNo a))) as N1
    by (rewrite <- sortHelper_lex; congruence).
  assert (~ (y c < y b \/ (y c = y b /\ z c < z b)
             \/ (y c = y b /\ z c = z b /\ givenOrderNo c < givenOrderNo b))) as N2
    by (rewrite <- sortHelper_lex; congruence).
  lia.
Qed.

(** ** The sort *)

Lemma sort_insert_perm : forall e l, Permutation (e :: l) (sort_insert e l).
Proof.
  intros e l. induction l as [|h t IH]; simpl; [auto|].
  destruct (sortHelper h e); [|auto].
  eapply perm_trans; [apply perm_swap|]. constructor. exact IH.
Qed.

Lemma Common_sort_perm : forall l, Permutation l (Common_sort l).
Proof.
  induction l as [|h t IH]; simpl; [constructor|].
  eapply perm_trans; [constructor; exact IH|]. apply sort_insert_perm.
Qed.

Lemma sort_insert_sorted : forall e l, Sorted sort_le l -> Sorted sort_le (sort_insert e l).
Proof.
  intros e l. induction l as [|h t IH]; intros Hs; simpl.
  - repeat constructor.
  - destruct (sortHelper h e) eqn:E.
    + apply Sorted_inv in Hs as [Hs Hd]. constructor; [auto|].
      destruct t as [|h2 t]; simpl.
      * constructor. unfold sort_le. apply sortHelper_asym; exact E.
      * destruct (sortHelper h2 e); constructor.
        -- inversion Hd; assumption.
        -- unfold sort_le. apply sortHelper_asym; exact E.
    + constructor; [exact Hs|]. constructor. exact E.
Qed.

Lemma Common_sort_sorted : forall l, StronglySorted sort_le (Common_sort l).
Proof.
  intros l. apply Sorted_StronglySorted; [intros a b c; apply sort_le_trans|].
  induction l as [|h t IH]; simpl; [constructor|]. apply sort_insert_sorted, IH.
Qed.

(** ** The entries of the traversal *)

Lemma fillList_gon : forall env fuel n cn st es st',
  fillList env fuel n cn st = Ok es st' ->
  -32768 <= n <= 32767 ->
  forall i e, nth_error es i = Some e -> givenOrderNo e = wrap16 (n + Z.of_nat i).
Proof.
  intros env fuel. induction fuel as [|f IH]; intros n cn st es st' H Hn i e Hi;
    (destruct cn as [nd|]; [|simpl in H; injection H as <- _; destruct i; discriminate]);
    simpl in H; try discriminate.
  - unfold bind, ret, readEntry, lookupNode in H.
    destruct (succ nd =? 0).
    + destruct (fillList env f (wrap16 (n + 1)) None st) as [rest st1|] eqn:E; [|discriminate].
      injection H as <- _.
      destruct i as [|i]; simpl in Hi.
      * injection Hi as <-. simpl. rewrite wrap16_id; lia.
      * eapply IH in E; [| |exact Hi]; [|unfold wrap16; pose proof (Z.mod_pos_bound (n + 1 + 32768) 65536); lia].
        rewrite E, wrap16_add_l. f_equal. lia.
    + destruct (st_nodes st (succ nd)) as [nd'|]; [|discriminate].
      destruct (fillList env f (wrap16 (n + 1)) (Some nd') st) as [rest st1|] eqn:E; [|discriminate].
      injection H as <- _.
      destruct i as [|i]; simpl in Hi.
      * injection Hi as <-. simpl. rewrite wrap16_id; lia.
      * eapply IH in E; [| |exact Hi]; [|unfold wrap16; pose proof (Z.mod_pos_bound (n + 1 + 32768) 65536); lia].
        rewrite E, wrap16_add_l. f_equal. lia.
Qed.

Lemma castEntries_fillList : forall env fuel first st es st1,
  castEntries env fuel first st = Ok es st1 ->
  exists cn st0, fillList env fuel 0 cn st0 = Ok es st1.
Proof.
  intros env fuel first st es st1 H. unfold castEntries, bind in H.
  destruct (lookupNode first true st) as [cn st0|]; [|discriminate].
  eauto.
Qed.

Lemma makeSortedList_eq : forall env fuel first st es st1,
  castEntries env fuel first (clearLists st) = Ok es st1 ->
  makeSortedList env fuel first st = Ok tt (upd_list st1 (Common_sort es)).
Proof.
  intros env fuel first st es st1 H. unfold makeSortedList, bind, modify.
  rewrite H. reflexivity.
Qed.

(** [b] comes after [a] in [out]. *)
Definition before (out : list AnimateEntry) (a b : AnimateEntry) : Prop :=
  exists p q, (p < q)%nat /\ nth_error out p = Some a /\ nth_error out q = Some b.

(** [out] is [es] sorted by ascending [y], then [z], then [givenOrderNo],
    and entries of [es] with equal [y] and [z] keep their order. *)
Definition sorted_stable (es out : list AnimateEntry) : Prop :=
  Permutation es out /\ StronglySorted sort_le out /\
  (forall i j a b, (i < j)%nat -> nth_error es i = Some a -> nth_error es j = Some b ->
     y a = y b -> z a = z b -> before out a b).

Lemma sorted_before : forall es out a b,
  Permutation es out -> StronglySorted sort_le out ->
  In a es -> In b es -> sortHelper a b = true -> before out a b.
Proof.
  intros es out a b Hp Hs Ha Hb Hab.
  apply (Permutation_in _ Hp) in Ha, Hb.
  apply In_nth_error in Ha as [p Hp'], Hb as [q Hq].
  exists p, q. split; [|auto].
  destruct (Nat.lt_trichotomy p q) as [Hlt|[Heq|Hgt]]; [exact Hlt| |].
  - subst q. rewrite Hp' in Hq. injection Hq as ->.
    apply sortHelper_lex in Hab. lia.
  - pose proof (StronglySorted_nth _ _ _ _ _ _ Hs Hgt Hq Hp') as H.
    unfold sort_le in H. congruence.
Qed.

Definition isOk {A} (r : Result A) : bool := match r with Ok _ _ => true | Err _ => false end.

Definition nth_entry {A} (r : Result (list A)) (i : nat) : option A :=
  match r with Ok l _ => nth_error l i | Err _ => None end.

(** A list of 32769 objects, all at y = 0, z = 0, through nodes 1 .. 32769. *)
Definition nodesBig (a : Z) : option Node :=
  if (1 <=? a) && (a <=? 32769) then Some (mkNode a (if a =? 32769 then 0 else a + 1))
  else None.

Definition stBig : St := st_init store0 nodesBig (fun _ => None) (fun _ => 0) 0 [].

(** ** Claim C1 *)

(** C1 (code bug). [makeSortedList] sets [_list] to the traversal-order
    entries sorted by [Common::sort] with the single comparator
    [sortHelper] (ascending [y], then [z], then [givenOrderNo]): for every
    list the result is a permutation of the entries and is sorted by that
    comparator. Entries with equal [y] and [z] keep their traversal order,
    as the source's comments require, only while the list holds at most
    32768 objects: [listNr] is an [int16], and the 32769th entry's
    [givenOrderNo] wraps to -32768 (see [makeSortedList_int16_order_cex]). *)
Theorem makeSortedList_sorted_stable : forall env fuel first st es st1,
  castEntries env fuel first (clearLists st) = Ok es st1 ->
  makeSortedList env fuel first st = Ok tt (upd_list st1 (Common_sort es)) /\
  Permutation es (Common_sort es) /\ StronglySorted sort_le (Common_sort es) /\
  (forall a b, sortHelper a b = true <->
     y a < y b \/ (y a = y b /\ z a < z b)
     \/ (y a = y b /\ z a = z b /\ givenOrderNo a < givenOrderNo b)) /\
  (Z.of_nat (List.length es) <= 32768 -> sorted_stable es (Common_sort es)).
Proof.
  intros env fuel first st es st1 H.
  split; [apply makeSortedList_eq; exact H|].
  split; [apply Common_sort_perm|]. split; [apply Common_sort_sorted|].
  split; [apply sortHelper_lex|].
  intros Hlen.
  split; [apply Common_sort_perm|]. split; [apply Common_sort_sorted|].
  intros i j a b Hij Ha Hb Hy Hz.
  destruct (castEntries_fillList _ _ _ _ _ _ H) as [cn [st0 Hf]].
  pose proof (fillList_gon _ _ _ _ _ _ _ Hf ltac:(lia) i a Ha) as Ga.
  pose proof (fillList_gon _ _ _ _ _ _ _ Hf ltac:(lia) j b Hb) as Gb.
  assert (Hj : (j < List.length es)%nat) by (apply nth_error_Some; congruence).
  rewrite wrap16_id in Ga by lia. rewrite wrap16_id in Gb by lia.
  apply sorted_before with es.
  - apply Common_sort_perm.
  - apply Common_sort_sorted.
  - eapply nth_error_In; exact Ha.
  - eapply nth_error_In; exact Hb.
  - apply sortHelper_lex. right. right. lia.
Qed.

Lemma makeSortedList_sorted_stable_witness :
  match castEntries env0 10 11 (clearLists st3) with
  | Ok es st1 => sorted_stable es (Common_sort es) /\ map object (Common_sort es) = [1; 2; 3]
  | Err _ => False
  end.
Proof.
  destruct (castEntries env0 10 11 (clearLists st3)) as [es st1|m] eqn:E.
  - pose proof (f_equal (fun r => match r with Ok l _ => l | Err _ => [] end) E) as L.
    vm_compute in L. subst es.
    split; [|reflexivity].
    apply (proj2 (proj2 (proj2 (proj2 (makeSortedList_sorted_stable env0 10 11 st3 _ st1 E))))). simpl. lia.
  - vm_compute in E. discriminate.
Defined.

(** C1, as stated, fails: [listNr] is an [int16], so the 32769th entry gets
    [givenOrderNo = -32768] and is sorted before the 32768th although both
    have [y = 0] and [z = 0]. *)
Lemma makeSortedList_int16_order_cex :
  ~ (forall env fuel first st es st1 st',
       castEntries env fuel first (clearLists st) = Ok es st1 ->
       makeSortedList env fuel first st = Ok tt st' ->
       sorted_stable es (st_list st')).
Proof.
  intros H.
  destruct (castEntries env0 (Z.to_nat 40000) 1 (clearLists stBig)) as [es st1|m] eqn:E.
  - pose proof (H _ _ _ _ _ _ _ E (makeSortedList_eq _ _ _ _ _ _ E)) as [_ [Hs Hst]].
    simpl in Hs, Hst.
    assert (Ha : exists a, nth_entry (castEntries env0 (Z.to_nat 40000) 1 (clearLists stBig)) 32767
                          = Some a /\ givenOrderNo a = 32767 /\ y a = 0 /\ z a = 0)
      by (eexists; split; [vm_compute; reflexivity | vm_compute; auto]).
    assert (Hb : exists b, nth_entry (castEntries env0 (Z.to_nat 40000) 1 (clearLists stBig)) 32768
                          = Some b /\ givenOrderNo b = -32768 /\ y b = 0 /\ z b = 0)
      by (eexists; split; [vm_compute; reflexivity | vm_compute; auto]).
    destruct Ha as [a [Ha [Ga [Ya Za]]]], Hb as [b [Hb [Gb [Yb Zb]]]].
    rewrite E in Ha, Hb. cbn [nth_entry] in Ha, Hb.
    assert (Hlt : (32767 < 32768)%nat) by (apply Nat.ltb_lt; vm_compute; reflexivity).
    destruct (Hst _ _ _ _ Hlt Ha Hb ltac:(congruence) ltac:(congruence)) as [p [q [Hpq [Hp Hq]]]].
    pose proof (StronglySorted_nth _ _ _ _ _ _ Hs Hpq Hp Hq) as Hle.
    unfold sort_le in Hle.
    assert (sortHelper b a = true) by (apply sortHelper_lex; lia).
    congruence.
  - assert (Hok : isOk (castEntries env0 (Z.to_nat 40000) 1 (clearLists stBig)) = true)
      by (vm_compute; reflexivity).
    rewrite E in Hok. discriminate.
Qed.

(** ** Signal bits *)

Lemma has_pow2 : forall s k, 0 <= k -> has s (2 ^ k) = Z.testbit s k.
Proof.
  intros s k Hk. unfold has. destruct (Z.testbit s k) eqn:T.
  - assert (Hne : Z.land s (2 ^ k) <> 0).
    { intros H0. assert (Z.testbit (Z.land s (2 ^ k)) k = true) as H1
        by (rewrite Z.land_spec, Z.pow2_bits_true, T by lia; reflexivity).
      rewrite H0, Z.bits_0 in H1. discriminate. }
    apply Z.eqb_neq in Hne. rewrite Hne. reflexivity.
  - assert (H0 : Z.land s (2 ^ k) = 0).
    { apply Z.bits_inj'. intros n Hn.
      rewrite Z.land_spec, Z.bits_0, Z.pow2_bits_eqb by lia.
      destruct (Z.eqb_spec k n) as [<-|]; [rewrite T|]; auto with bool. }
    rewrite H0. reflexivity.
Qed.

Lemma has_lor : forall s a b, has s (Z.lor a b) = has s a || has s b.
Proof.
  intros s a b. unfold has. rewrite Z.land_lor_distr_r.
  destruct (Z.eqb_spec (Z.lor (Z.land s a) (Z.land s b)) 0) as [E|E].
  - apply Z.lor_eq_0_iff in E as [-> ->]. reflexivity.
  - destruct (Z.eqb_spec (Z.land s a) 0), (Z.eqb_spec (Z.land s b) 0); try reflexivity.
    exfalso. apply E. apply Z.lor_eq_0_iff. auto.
Qed.

Lemma has_StopUpdate : forall s, has s kSignalStopUpdate = Z.testbit s 0.
Proof. intros s. exact (has_pow2 s 0 ltac:(lia)). Qed.
Lemma has_ViewUpdated : forall s, has s kSignalViewUpdated = Z.testbit s 1.
Proof. intros s. exact (has_pow2 s 1 ltac:(lia)). Qed.
Lemma has_NoUpdate : forall s, has s kSignalNoUpdate = Z.testbit s 2.
Proof. intros s. exact (has_pow2 s 2 ltac:(lia)). Qed.
Lemma has_Hidden : forall s, has s kSignalHidden = Z.testbit s 3.
Proof. intros s. exact (has_pow2 s 3 ltac:(lia)). Qed.
Lemma has_FixedPriority : forall s, has s kSignalFixedPriority = Z.testbit s 4.
Proof. intros s. exact (has_pow2 s 4 ltac:(lia)). Qed.
Lemma has_AlwaysUpdate : forall s, has s kSignalAlwaysUpdate = Z.testbit s 5.
Proof. intros s. exact (has_pow2 s 5 ltac:(lia)). Qed.
Lemma has_ForceUpdate : forall s, has s kSignalForceUpdate = Z.testbit s 6.
Proof. intros s. exact (has_pow2 s 6 ltac:(lia)). Qed.
Lemma has_RemoveView : forall s, has s kSignalRemoveView = Z.testbit s 7.
Proof. intros s. exact (has_pow2 s 7 ltac:(lia)). Qed.
Lemma has_Frozen : forall s, has s kSignalFrozen = Z.testbit s 8.
Proof. intros s. exact (has_pow2 s 8 ltac:(lia)). Qed.
Lemma has_IgnoreActor : forall s, has s kSignalIgnoreActor = Z.testbit s 14.
Proof. intros s. exact (has_pow2 s 14 ltac:(lia)). Qed.
Lemma has_DisposeMe : forall s, has s kSignalDisposeMe = Z.testbit s 15.
Proof. intros s. exact (has_pow2 s 15 ltac:(lia)). Qed.

Create Rewrite HintDb bits.
Hint Rewrite has_lor has_StopUpdate has_ViewUpdated has_NoUpdate has_Hidden
  has_FixedPriority has_AlwaysUpdate has_ForceUpdate has_RemoveView has_Frozen
  has_IgnoreActor has_DisposeMe Z.land_spec Z.lor_spec : bits.

(** Turn signal tests into bit tests, evaluate the bits of constants, use the
    known bits of the hypotheses and split on the unknown ones. *)
Ltac evalbits :=
  repeat match goal with
  | |- context [Z.testbit ?a ?b] =>
      let v := eval vm_compute in (Z.testbit a b) in
      lazymatch v with
      | true => change (Z.testbit a b) with true
      | false => change (Z.testbit a b) with false
      end
  | H : context [Z.testbit ?a ?b] |- _ =>
      let v := eval vm_compute in (Z.testbit a b) in
      lazymatch v with
      | true => change (Z.testbit a b) with true in H
      | false => change (Z.testbit a b) with false in H
      end
  end.

Ltac bits := autorewrite with bits in *; evalbits.

Ltac bitsolve :=
  bits;
  repeat match goal with H : Z.testbit ?a ?b = _ |- _ => progress rewrite H end;
  repeat match goal with |- context [Z.testbit ?a ?b] => destruct (Z.testbit a b) end;
  simpl; try reflexivity; try congruence.

(** ** Update passes *)

Ltac munfold := cbv beta iota zeta delta [bind ret get emit modify readSelector writeSelector fail].

Lemma update_remove_entry : forall e st,
  exists st', update_remove e st = Ok (remove_entry (st_picNotValid st) e) st' /\
              st_picNotValid st' = st_picNotValid st.
Proof.
  intros e st. unfold update_remove, remove_entry.
  destruct (has (signal e) kSignalNoUpdate); [|destruct (has (signal e) kSignalStopUpdate); eexists; split; reflexivity].
  destruct (has (signal e) kSignalRemoveView); munfold; cbn [negb andb].
  - eexists; split; reflexivity.
  - destruct (st_picNotValid st =? 1); cbn [negb andb]; eexists; split; reflexivity.
Qed.

Lemma update_pass1_map : forall l st,
  exists st', update_pass1 l st = Ok (map (remove_entry (st_picNotValid st)) l) st' /\
              st_picNotValid st' = st_picNotValid st.
Proof.
  induction l as [|e t IH]; intros st; simpl.
  - exists st. split; reflexivity.
  - destruct (IH st) as [st1 [H1 P1]]. unfold bind at 1. rewrite H1.
    destruct (update_remove_entry e st1) as [st2 [H2 P2]].
    unfold bind. rewrite H2. rewrite P1. exists st2. split; [reflexivity|congruence].
Qed.

Lemma upd_log_upd_log : forall st a b, upd_log (upd_log st a) b = upd_log st b.
Proof. reflexivity. Qed.

Lemma upd_log_self : forall st, upd_log st (st_log st) = st.
Proof. destruct st; reflexivity. Qed.

Lemma update_always_eq : forall env e st,
  update_always env e st = Ok (always_entry e) (upd_log st (st_log st ++ always_events env e)).
Proof.
  intros env e st. unfold update_always, always_events, always_entry.
  destruct (has (signal e) kSignalAlwaysUpdate) eqn:A; munfold; rewrite ?A; cbv beta iota.
  - destruct (negb (has _ kSignalIgnoreActor)); munfold; cbn [st_log upd_log];
      rewrite ?upd_log_upd_log, <- ?app_assoc; reflexivity.
  - rewrite app_nil_r, upd_log_self. reflexivity.
Qed.

Lemma update_pass2_eq : forall env l st,
  update_pass2 env l st =
  Ok (map always_entry l) (upd_log st (st_log st ++ List.concat (map (always_events env) l))).
Proof.
  intros env l. unfold update_pass2. induction l as [|e t IH]; intros st.
  - cbn. rewrite app_nil_r, upd_log_self. reflexivity.
  - cbn [forward map List.concat]. unfold bind at 1. rewrite update_always_eq.
    unfold bind. rewrite IH. cbn [st_log upd_log ret].
    rewrite upd_log_upd_log, app_assoc. reflexivity.
Qed.

Lemma nth_error_firstn_skipn : forall {A} (l : list A) i a,
  nth_error l i = Some a -> l = firstn i l ++ a :: skipn (S i) l.
Proof.
  intros A l. induction l as [|h t IH]; intros i a H; [destruct i; discriminate|].
  destruct i as [|i]; simpl in *.
  - injection H as ->. reflexivity.
  - f_equal. apply IH. exact H.
Qed.

(** C2: an entry whose signal has StopUpdate and AlwaysUpdate set and NoUpdate
    clear leaves pass 1 with StopUpdate cleared and NoUpdate set; pass 2 then
    draws its cel, marks it shown and clears NoUpdate, StopUpdate, ViewUpdated
    and ForceUpdate, and, unless IgnoreActor is set, fills the priority-marker
    strip (the bottom part of its cel rectangle) on the control plane. *)
Theorem update_stop_always : forall env l st i e,
  nth_error l i = Some e ->
  has (signal e) kSignalStopUpdate = true ->
  has (signal e) kSignalAlwaysUpdate = true ->
  has (signal e) kSignalNoUpdate = false ->
  exists l1 st1 e1 l2 st2 e2,
    update_pass1 l st = Ok l1 st1 /\ nth_error l1 i = Some e1 /\
    has (signal e1) kSignalStopUpdate = false /\ has (signal e1) kSignalNoUpdate = true /\
    update_pass2 env l1 st1 = Ok l2 st2 /\ nth_error l2 i = Some e2 /\
    showBitsFlag e2 = true /\
    has (signal e2) kSignalNoUpdate = false /\ has (signal e2) kSignalStopUpdate = false /\
    has (signal e2) kSignalViewUpdated = false /\ has (signal e2) kSignalForceUpdate = false /\
    st_log st2 =
      st_log st1 ++ List.concat (map (always_events env) (firstn i l1)) ++
      drawCelEv e ::
        (if has (signal e) kSignalIgnoreActor then []
         else [EvFillRect (markerRect env e) GFX_SCREEN_MASK_CONTROL 0 0 15]) ++
      List.concat (map (always_events env) (skipn (S i) l1)).
Proof.
  intros env l st i e Hi Hs Ha Hn.
  destruct (update_pass1_map l st) as [st1 [H1 _]].
  set (l1 := map (remove_entry (st_picNotValid st)) l) in *.
  set (e1 := set_signal e (Z.lor (Z.land (signal e) (Z.lnot kSignalStopUpdate)) kSignalNoUpdate)).
  assert (He1 : nth_error l1 i = Some e1).
  { unfold l1. rewrite nth_error_map, Hi. simpl. unfold remove_entry. rewrite Hn, Hs. reflexivity. }
  assert (Ha1 : has (signal e1) kSignalAlwaysUpdate = true) by (unfold e1; simpl; bitsolve).
  exists l1, st1, e1, (map always_entry l1),
    (upd_log st1 (st_log st1 ++ List.concat (map (always_events env) l1))), (always_entry e1).
  split; [exact H1|]. split; [exact He1|].
  split; [unfold e1; simpl; bitsolve|]. split; [unfold e1; simpl; bitsolve|].
  split; [apply update_pass2_eq|].
  split; [rewrite nth_error_map, He1; reflexivity|].
  unfold always_entry. rewrite Ha1. simpl.
  split; [reflexivity|].
  repeat (split; [unfold e1; simpl; bitsolve|]).
  rewrite (nth_error_firstn_skipn l1 i e1 He1) at 1.
  rewrite map_app, concat_app. simpl. unfold always_events at 2. rewrite Ha1.
  unfold always_entry. rewrite Ha1.
  replace (has (signal (set_signal (set_showBits e1 true) _)) kSignalIgnoreActor)
    with (has (signal e) kSignalIgnoreActor) by (unfold e1; simpl; bitsolve).
  destruct (has (signal e) kSignalIgnoreActor); reflexivity.
Qed.

Lemma update_stop_always_witness :
  nth_error [entrySA] 0 = Some entrySA /\
  has (signal entrySA) kSignalStopUpdate = true /\
  has (signal entrySA) kSignalAlwaysUpdate = true /\
  has (signal entrySA) kSignalNoUpdate = false /\
  exists l1 st1 e1, update_pass1 [entrySA] st3 = Ok l1 st1 /\ nth_error l1 0 = Some e1 /\
    has (signal e1) kSignalNoUpdate = true.
Proof.
  split; [reflexivity|]. split; [reflexivity|]. split; [reflexivity|]. split; [reflexivity|].
  destruct (update_stop_always env0 [entrySA] st3 0 entrySA eq_refl eq_refl eq_refl eq_refl)
    as (l1 & st1 & e1 & l2 & st2 & e2 & H1 & H2 & H3 & H4 & _).
  exists l1, st1, e1. split; [exact H1|]. split; [exact H2|exact H4].
Defined.

Lemma update_pass1_app : forall pre suf st,
  update_pass1 (pre ++ suf) st = bind (update_pass1 suf) (update_pass1_onto pre) st.
Proof.
  induction pre as [|a t IH]; intros suf st; simpl.
  - unfold bind. destruct (update_pass1 suf st); reflexivity.
  - unfold bind at 1. rewrite IH. unfold bind.
    destruct (update_pass1 suf st) as [r s|m]; [|reflexivity]. reflexivity.
Qed.

(** C3 (corrected): pass 1 runs from the last entry to the first, so a
    no-update entry [e] is handled after every entry behind it.  When
    RemoveView is clear its saved background is freed exactly when the
    picture state is 1, and restored for every other state (the valid state 0
    and the invalid state 2 alike), and underBits is then set to 0.  Its
    ForceUpdate is cleared, and when ViewUpdated was set both ViewUpdated and
    NoUpdate are cleared. *)
Theorem update_pass1_noUpdate : forall pre e post st,
  has (signal e) kSignalNoUpdate = true ->
  exists l1 st1,
    update_pass1 post st = Ok l1 st1 /\
    st_picNotValid st1 = st_picNotValid st /\
    update_remove e st1 = Ok (remove_entry (st_picNotValid st) e) (pass1_effect (st_picNotValid st) e st1) /\
    update_pass1 (pre ++ e :: post) st =
      update_pass1_onto pre (remove_entry (st_picNotValid st) e :: l1)
        (pass1_effect (st_picNotValid st) e st1) /\
    signal (remove_entry (st_picNotValid st) e) =
      (let s1 := Z.land (signal e) (Z.lnot kSignalForceUpdate) in
       if has (signal e) kSignalViewUpdated
       then Z.land s1 (Z.lnot (Z.lor kSignalViewUpdated kSignalNoUpdate)) else s1) /\
    showBitsFlag (remove_entry (st_picNotValid st) e) =
      (negb (has (signal e) kSignalRemoveView) && negb (st_picNotValid st =? 1)) || showBitsFlag e.
Proof.
  intros pre e post st Hn.
  destruct (update_pass1_map post st) as [st1 [H1 P1]].
  exists (map (remove_entry (st_picNotValid st)) post), st1.
  assert (Hr : update_remove e st1 =
               Ok (remove_entry (st_picNotValid st) e) (pass1_effect (st_picNotValid st) e st1)).
  { unfold update_remove, remove_entry, pass1_effect. rewrite Hn.
    destruct (has (signal e) kSignalRemoveView); munfold; cbn [negb andb]; [reflexivity|].
    rewrite P1. destruct (st_picNotValid st =? 1); reflexivity. }
  split; [exact H1|]. split; [exact P1|]. split; [exact Hr|]. split.
  - rewrite update_pass1_app. unfold bind at 1. simpl. unfold bind at 1. rewrite H1.
    unfold bind. rewrite Hr. reflexivity.
  - unfold remove_entry. rewrite Hn. split.
    + destruct (negb (has (signal e) kSignalRemoveView) && negb (st_picNotValid st =? 1));
        simpl; set (s1 := Z.land (signal e) (Z.lnot kSignalForceUpdate));
        replace (has s1 kSignalViewUpdated) with (has (signal e) kSignalViewUpdated)
          by (unfold s1; bitsolve); reflexivity.
    + destruct (has (signal e) kSignalRemoveView), (st_picNotValid st =? 1); simpl;
        [reflexivity | reflexivity | reflexivity | destruct (showBitsFlag e); reflexivity].
Qed.

(** A no-update entry processed while the picture is marked invalid (state 2)
    has its background restored, not freed. *)
Lemma update_pass1_restore_on_invalid_cex :
  ~ (forall e st l1 st1,
       has (signal e) kSignalNoUpdate = true ->
       has (signal e) kSignalRemoveView = false ->
       st_picNotValid st <> 0 ->
       update_pass1 [e] st = Ok l1 st1 ->
       st_log st1 = st_log st ++ [EvBitsFree (st_store st (object e) SelUnderBits)]).
Proof.
  intro H.
  specialize (H entryNU stPNV2 _ _ eq_refl eq_refl ltac:(discriminate) eq_refl).
  vm_compute in H. discriminate H.
Qed.

Lemma update_pass1_noUpdate_witness :
  has (signal entryNU) kSignalNoUpdate = true /\
  exists l1 st1, update_pass1 [] stPNV2 = Ok l1 st1 /\
    showBitsFlag (remove_entry (st_picNotValid stPNV2) entryNU) = true.
Proof.
  split; [reflexivity|].
  destruct (update_pass1_noUpdate [] entryNU [] stPNV2 eq_refl)
    as (l1 & st1 & H1 & _ & _ & _ & _ & H6).
  exists l1, st1. split; [exact H1|]. rewrite H6. reflexivity.
Defined.

(** C4: for views whose loop and cel counts fit an int16, adjustInvalidCels resolves a loop index at or above the loop count to 0 and writes 0 back to the object's loop selector, a negative loop index to loopCount - 1 without write-back, and keeps any other loop index; it then applies the same rule to the cel index against the cel count of the resolved loop, writing back to the cel selector only in the at-or-above case. Nothing else in the state changes. *)
Theorem adjustInvalidCels_resolve : forall view it st,
  0 <= getLoopCount view <= 32767 ->
  (forall l, 0 <= getCelCount view l <= 32767) ->
  let lc := getLoopCount view in
  let lp := if lc <=? loopNo it then 0 else if loopNo it <? 0 then lc - 1 else loopNo it in
  let store1 := if lc <=? loopNo it then store_write (st_store st) (object it) SelLoop 0
                else st_store st in
  let cc := getCelCount view lp in
  let cl := if cc <=? celNo it then 0 else if celNo it <? 0 then cc - 1 else celNo it in
  let store2 := if cc <=? celNo it then store_write store1 (object it) SelCel 0 else store1 in
  adjustInvalidCels view it st = Ok (set_celNo (set_loopNo it lp) cl) (upd_store st store2).
Proof.
  intros view it st Hl Hc lc lp store1 cc cl store2.
  unfold adjustInvalidCels.
  rewrite (wrap16_id (getLoopCount view)) by lia.
  fold lc. unfold lp, store1 in *. clear lp store1.
  destruct (lc <=? loopNo it) eqn:E1; munfold; cbv beta iota.
  - subst cc. cbn [loopNo set_loopNo celNo object set_celNo].
    rewrite (wrap16_id (getCelCount view 0)) by (specialize (Hc 0); lia).
    unfold cl, store2. destruct (getCelCount view 0 <=? celNo it) eqn:E2; munfold; [reflexivity|].
    destruct (celNo it <? 0) eqn:E3.
    + rewrite wrap16_id by (specialize (Hc 0); lia). reflexivity.
    + destruct it; reflexivity.
  - destruct (loopNo it <? 0) eqn:E3; cbv beta iota.
    + rewrite (wrap16_id (lc - 1)) by lia. cbn [loopNo set_loopNo celNo object set_celNo].
      rewrite (wrap16_id (getCelCount view (lc - 1))) by (specialize (Hc (lc - 1)); lia).
      subst cc cl store2.
      destruct (getCelCount view (lc - 1) <=? celNo it) eqn:E2; munfold; [reflexivity|].
      destruct (celNo it <? 0) eqn:E4.
      * rewrite wrap16_id by (specialize (Hc (lc - 1)); lia). destruct st; reflexivity.
      * destruct st; reflexivity.
    + rewrite (wrap16_id (getCelCount view (loopNo it))) by (specialize (Hc (loopNo it)); lia).
      subst cc cl store2.
      destruct (getCelCount view (loopNo it) <=? celNo it) eqn:E2; munfold.
      * destruct it, st; reflexivity.
      * destruct (celNo it <? 0) eqn:E4.
        -- rewrite wrap16_id by (specialize (Hc (loopNo it)); lia). destruct it, st; reflexivity.
        -- destruct it, st; reflexivity.
Qed.

Lemma adjustInvalidCels_resolve_witness :
  (0 <= getLoopCount view0 <= 32767) /\ (forall l, 0 <= getCelCount view0 l <= 32767) /\
  adjustInvalidCels view0 entryLoop9 st3 =
    Ok (set_celNo (set_loopNo entryLoop9 0) 2) (upd_store st3 (store_write (st_store st3) 1 SelLoop 0)).
Proof.
  split; [simpl; lia|]. split; [intros; simpl; lia|].
  exact (adjustInvalidCels_resolve view0 entryLoop9 st3 ltac:(simpl; lia) ltac:(intros; simpl; lia)).
Defined.

Lemma wrap16_in : forall v, in_int16 v = true -> wrap16 v = v.
Proof.
  intros v H. unfold in_int16 in H. apply andb_true_iff in H as [H1 H2].
  apply Z.leb_le in H1, H2. apply wrap16_id. lia.
Qed.

(** C5 (corrected): for a scaleable view and a scale signal with DoScaling and GlobalScaling, processViewScaling computes, each value stored in an int16 variable (so truncated to 16 bits, wrapping on overflow), maxScale and celHeight, maxCelHeight = (maxScale * celHeight) >> 7 (a floor division by 128), vanishingY, fixedPortY = portBottom - vanishingY and fixedEntryY = y - vanishingY with 0 replaced by 1; it fails with the fatal error when celHeight or fixedPortY is 0, and otherwise sets scaleY to ((maxCelHeight * fixedEntryY) quot fixedPortY * 128) quot celHeight, with quot the truncating division of C and each quotient stored in the int16 scaleY, and scaleX to the same value, writing both back to the object. When the operands are nonnegative and the divisors positive the truncating divisions are floor divisions. *)
Theorem processViewScaling_global : forall env view it st,
  isScaleable view = true ->
  has (scaleSignal it) kScaleSignalDoScaling = true ->
  has (scaleSignal it) kScaleSignalGlobalScaling = true ->
  let o := object it in
  let maxScale := wrap16 (st_store st o SelMaxScale) in
  let celHeight := wrap16 (getHeight view (loopNo it) (celNo it)) in
  let vanishingY := wrap16 (st_store st (st_globals st kGlobalVarCurrentRoom) SelVanishingY) in
  let maxCelHeight := wrap16 (maxScale * celHeight / 128) in
  let fixedPortY := wrap16 (portRectBottom env (st_port st) - vanishingY) in
  let fixedEntryY0 := wrap16 (y it - vanishingY) in
  let fixedEntryY := if fixedEntryY0 =? 0 then 1 else fixedEntryY0 in
  let q1 := wrap16 (Z.quot (maxCelHeight * fixedEntryY) fixedPortY) in
  let scaleY := wrap16 (Z.quot (q1 * 128) celHeight) in
  processViewScaling env view it st =
    (if (celHeight =? 0) || (fixedPortY =? 0) then Err "global scaling panic"
     else Ok (set_scaling it (scaleSignal it) scaleY scaleY)
             (upd_store st (store_write (store_write (st_store st) o SelScaleX scaleY)
                              o SelScaleY scaleY))) /\
  (0 < fixedPortY -> 0 <= maxCelHeight * fixedEntryY ->
   q1 = wrap16 (maxCelHeight * fixedEntryY / fixedPortY)) /\
  (0 < celHeight -> 0 <= q1 -> scaleY = wrap16 (q1 * 128 / celHeight)).
Proof.
  intros env view it st Hs Hd Hg o maxScale celHeight vanishingY maxCelHeight fixedPortY
    fixedEntryY0 fixedEntryY q1 scaleY.
  split; [|split].
  - subst o maxScale celHeight vanishingY maxCelHeight fixedPortY fixedEntryY0 fixedEntryY q1 scaleY.
    unfold processViewScaling, applyGlobalScaling. rewrite Hs, Hd, Hg. cbv beta iota.
    munfold. cbn [negb]. cbv beta iota zeta.
    rewrite Z.shiftr_div_pow2 by lia. change (2 ^ 7) with 128.
    destruct ((_ =? 0) || (_ =? 0)); reflexivity.
  - intros Hp Hn. unfold q1. f_equal. apply Z.quot_div_nonneg; lia.
  - intros Hc Hq. unfold scaleY. f_equal. apply Z.quot_div_nonneg; lia.
Qed.
(** An entry one line above the vanishing point (y = 99, vanishingY = 100) gets scaleY 0 from the truncating division, not the floor value -4. *)
Lemma processViewScaling_floor_cex :
  ~ (forall env view it st it' st',
       isScaleable view = true ->
       has (scaleSignal it) kScaleSignalDoScaling = true ->
       has (scaleSignal it) kScaleSignalGlobalScaling = true ->
       processViewScaling env view it st = Ok it' st' ->
       let maxScale := st_store st (object it) SelMaxScale in
       let celHeight := getHeight view (loopNo it) (celNo it) in
       let vanishingY := st_store st (st_globals st kGlobalVarCurrentRoom) SelVanishingY in
       let maxCelHeight := maxScale * celHeight / 128 in
       let fixedPortY := portRectBottom env (st_port st) - vanishingY in
       let fixedEntryY := if y it - vanishingY =? 0 then 1 else y it - vanishingY in
       scaleY it' = maxCelHeight * fixedEntryY / fixedPortY * 128 / celHeight /\
       scaleX it' = scaleY it').
Proof.
  intro H.
  specialize (H env0 view0 (entryAt 99) stScale _ _ eq_refl eq_refl eq_refl eq_refl).
  vm_compute in H. destruct H as [H _]. discriminate H.
Qed.

Lemma processViewScaling_global_witness :
  isScaleable view0 = true /\
  exists it' st', processViewScaling env0 view0 (entryAt 150) stScale = Ok it' st' /\
    scaleY it' = 64 /\ scaleX it' = 64.
Proof.
  split; [reflexivity|].
  destruct (processViewScaling_global env0 view0 (entryAt 150) stScale eq_refl eq_refl eq_refl)
    as [H _].
  rewrite H. eexists; eexists. split; [reflexivity|]. split; reflexivity.
Defined.

Lemma writeSignals_eq : forall l st,
  writeSignals l st = Ok tt (upd_store st (signalsWritten l (st_store st))).
Proof.
  induction l as [|it t IH]; intros st; simpl.
  - destruct st; reflexivity.
  - unfold bind, writeSelector, modify. rewrite IH. reflexivity.
Qed.

Lemma restorePass_app : forall env pre suf st,
  restorePass env (pre ++ suf) st = bind (restorePass env suf) (restorePass_onto env pre) st.
Proof.
  intros env. induction pre as [|a t IH]; intros suf st; simpl.
  - unfold bind. destruct (restorePass env suf st); reflexivity.
  - unfold bind at 1. rewrite IH. unfold bind.
    destruct (restorePass env suf st) as [r s|m]; reflexivity.
Qed.

(** C6: restoreAndDelete first writes every entry's signal to its object, first entry first, and then runs the second loop on that store; the second loop handles an entry [e] after all entries behind it and before all entries ahead of it; for each entry it reads the signal anew from the current store, restores the saved background and sets underBits to 0 exactly when that signal has neither NoUpdate nor RemoveView, and after that runs the object's delete_ method exactly when the signal has DisposeMe. *)
Theorem restoreAndDelete_order : forall env,
  (forall st,
     restoreAndDelete env st =
       match restorePass env (st_list st) (upd_store st (signalsWritten (st_list st) (st_store st))) with
       | Ok l st' => Ok tt (upd_list st' l)
       | Err m => Err m
       end) /\
  (forall pre e post st,
     restorePass env (pre ++ e :: post) st =
       match restorePass env post st with
       | Err m => Err m
       | Ok t st1 =>
           match restoreAndDelete_one env e st1 with
           | Err m => Err m
           | Ok e' st2 => restorePass_onto env pre (e' :: t) st2
           end
       end) /\
  (forall e st,
     let s := wrapU16 (st_store st (object e) SelSignal) in
     let st1 :=
       if Z.land s (Z.lor kSignalNoUpdate kSignalRemoveView) =? 0 then
         upd_store (upd_log st (st_log st ++ [EvBitsRestore (st_store st (object e) SelUnderBits)]))
           (store_write (st_store st) (object e) SelUnderBits 0)
       else st in
     let st2 :=
       if has s kSignalDisposeMe then
         delete_ env (object e) (upd_log st1 (st_log st1 ++ [EvInvokeDelete (object e)]))
       else st1 in
     restoreAndDelete_one env e st = Ok (set_signal e s) st2).
Proof.
  intros env. split; [|split].
  - intros st. unfold restoreAndDelete. munfold.
    rewrite writeSignals_eq. cbv beta iota.
    destruct (restorePass env (st_list st) _); reflexivity.
  - intros pre e post st. rewrite restorePass_app. simpl. unfold bind.
    destruct (restorePass env post st) as [t st1|m]; [|reflexivity].
    destruct (restoreAndDelete_one env e st1) as [e' st2|m]; reflexivity.
  - intros e st s st1 st2. unfold restoreAndDelete_one. munfold.
    cbn [signal set_signal object]. fold s. subst st1 st2.
    destruct (Z.land s (Z.lor kSignalNoUpdate kSignalRemoveView) =? 0);
      destruct (has s kSignalDisposeMe); reflexivity.
Qed.

(** The disposal of object 2 sets DisposeMe on object 1, and the later step for object 1 honors it. *)
Example restoreAndDelete_sibling :
  match restoreAndDelete envSibling stSibling with Ok _ st => st_log st | Err _ => [] end =
  [EvBitsRestore 0; EvInvokeDelete 2; EvBitsRestore 0; EvInvokeDelete 1].
Proof. vm_compute. reflexivity. Qed.

Lemma reAnimate_save_eq : forall l st,
  reAnimate_save l st =
  Ok (setHandles (st_nextHandle st) l)
     (upd_nextHandle (upd_log st (st_log st ++ saveDrawEvents (st_nextHandle st) l))
        (st_nextHandle st + Z.of_nat (List.length l))).
Proof.
  induction l as [|it t IH]; intros st.
  - simpl. rewrite app_nil_r, Z.add_0_r. destruct st; reflexivity.
  - cbn [reAnimate_save]. munfold. unfold bitsSave. cbv beta iota zeta.
    rewrite IH. cbn. rewrite <- app_assoc. cbn.
    replace (st_nextHandle st + 1 + Z.of_nat (List.length t))
      with (st_nextHandle st + Z.pos (Pos.of_succ_nat (List.length t))) by lia.
    rewrite <- app_assoc. destruct st; reflexivity.
Qed.

Lemma reAnimate_restore_eq : forall l st,
  reAnimate_restore l st =
  Ok tt (upd_log st (st_log st ++ map (fun it => EvBitsRestore (castHandle it)) (rev l))).
Proof.
  induction l as [|it t IH]; intros st.
  - simpl. rewrite app_nil_r. destruct st; reflexivity.
  - cbn [reAnimate_restore]. munfold. rewrite IH. cbn.
    rewrite map_app, app_assoc. reflexivity.
Qed.

Lemma setHandles_handles : forall l h,
  map castHandle (setHandles h l) = handlesFrom h (List.length l).
Proof. induction l as [|it t IH]; intros h; simpl; [reflexivity|]. rewrite IH. reflexivity. Qed.

(** C7: with a non-empty last-cast snapshot, reAnimate saves each entry's background over the visual and priority planes and draws its cel, in snapshot order, the saves taking consecutive handles; it then shows the rectangle once and restores the saved backgrounds in the reverse order of the handles. With an empty snapshot it only shows the rectangle. *)
Theorem reAnimate_lifo : forall rect st,
  let l := st_lastCast st in
  let h0 := st_nextHandle st in
  exists st', reAnimate rect st = Ok tt st' /\
    st_log st' = st_log st ++
      match l with
      | [] => [EvBitsShow rect]
      | _ => saveDrawEvents h0 l ++ [EvBitsShow rect] ++
             map EvBitsRestore (rev (handlesFrom h0 (List.length l)))
      end.
Proof.
  intros rect st l h0. unfold reAnimate. munfold. subst l h0.
  destruct (st_lastCast st) as [|it t] eqn:E.
  - eexists. split; reflexivity.
  - rewrite reAnimate_save_eq. cbv beta iota. rewrite reAnimate_restore_eq.
    eexists. split; [reflexivity|]. cbn [st_log upd_log upd_lastCast upd_nextHandle].
    rewrite <- !app_assoc. f_equal. f_equal. cbn [app]. f_equal.
    rewrite <- setHandles_handles, <- map_rev, map_map. reflexivity.
Qed.

(** Snapshot [X; Y; Z] saved under handles 100, 101, 102 is restored as 102, 101, 100. *)
Example reAnimate_XYZ :
  match reAnimate (mkRect 0 0 100 100) stXYZ with
  | Ok _ st => skipn 6 (st_log st)
  | Err _ => []
  end = [EvBitsShow (mkRect 0 0 100 100); EvBitsRestore 102; EvBitsRestore 101; EvBitsRestore 100].
Proof. vm_compute. reflexivity. Qed.

Lemma invoke_loop_false : forall env fuel addr cn st st',
  invoke_loop env fuel addr cn st = Ok false st' ->
  fastCastEnabled env = true /\ st_globals st' kGlobalVarFastCast <> 0.
Proof.
  intros env fuel. induction fuel as [|f IH]; intros addr cn st st' H;
    (destruct cn as [n|]; [|discriminate H]); [discriminate H|].
  cbn [invoke_loop] in H.
  cbv beta iota zeta delta [bind ret get emit modify readSelector writeSelector fail] in H.
  destruct (fastCastEnabled env && negb (st_globals st kGlobalVarFastCast =? 0)) eqn:F.
  - injection H as <-. apply andb_true_iff in F as [F1 F2].
    apply negb_true_iff, Z.eqb_neq in F2. split; assumption.
  - repeat (match type of H with
            | context [match ?x with Ok _ _ => _ | Err _ => _ end] => destruct x
            | context [match ?x with Some _ => _ | None => _ end] => destruct x
            | context [if ?b then _ else _] => destruct b
            end; try discriminate H);
    apply IH in H; exact H.
Qed.

(** C8 (corrected): when the abort flag is set after an object's doit, invoke stops walking the list and returns true; when the node is gone after doit it also stops and returns true, without error; kernelAnimate, on invoke returning true, looks the list up again and runs the whole frame; and invoke returns false, the only early exit of kernelAnimate besides the null-list and invalid-list paths, only when fast cast is enabled and the fast-cast global is non-null (in the state invoke returns, the state in which it was tested). *)
Theorem invoke_abort_continues : forall env,
  (forall f addr n st,
     fastCastEnabled env && negb (st_globals st kGlobalVarFastCast =? 0) = false ->
     has (wrapU16 (st_store st (value n) SelSignal)) kSignalFrozen = false ->
     let st1 := doit env (value n) (upd_log st (st_log st ++ [EvInvokeDoit (value n)])) in
     st_abort st1 <> kAbortNone ->
     invoke_loop env (S f) addr (Some n) st = Ok true st1) /\
  (forall f addr n st,
     fastCastEnabled env && negb (st_globals st kGlobalVarFastCast =? 0) = false ->
     has (wrapU16 (st_store st (value n) SelSignal)) kSignalFrozen = false ->
     let st1 := doit env (value n) (upd_log st (st_log st ++ [EvInvokeDoit (value n)])) in
     st_abort st1 = kAbortNone ->
     st_nodes st1 addr = None ->
     invoke_loop env (S f) addr (Some n) st = Ok true st1) /\
  (forall fuel lr st old st0 first stI,
     kernelAnimate_prologue env st = Ok old st0 ->
     lr <> 0 ->
     st_lists st0 lr = Some first ->
     invoke env fuel first st0 = Ok true stI ->
     kernelAnimate env fuel lr true st = kernelAnimate_frame env fuel old (st_lists stI lr) stI) /\
  (forall fuel addr cn st st',
     invoke_loop env fuel addr cn st = Ok false st' ->
     fastCastEnabled env = true /\ st_globals st' kGlobalVarFastCast <> 0).
Proof.
  intros env. split; [|split; [|split]].
  - intros f addr n st Hf Hz st1 Ha. cbn [invoke_loop]. munfold. rewrite Hf, Hz. cbn [negb].
    fold st1. destruct (st_abort st1 =? kAbortNone) eqn:E; [apply Z.eqb_eq in E; contradiction|].
    reflexivity.
  - intros f addr n st Hf Hz st1 Ha Hn. cbn [invoke_loop]. munfold. rewrite Hf, Hz. cbn [negb].
    fold st1. rewrite Ha, Z.eqb_refl. cbn [negb]. unfold lookupNode at 1.
    rewrite Hn. destruct (addr =? 0); reflexivity.
  - intros fuel lr st old st0 first stI Hp Hl Hs Hi. unfold kernelAnimate. munfold.
    rewrite Hp. apply Z.eqb_neq in Hl. rewrite Hl. unfold lookupList. rewrite Hs.
    rewrite Hi. reflexivity.
  - exact (invoke_loop_false env).
Qed.

(** A doit that aborts script processing does not stop kernelAnimate: the throttle flag is set and the list is rebuilt in the same call. *)
Lemma kernelAnimate_abort_cex :
  ~ (forall env fuel lr st st',
       kernelAnimate env fuel lr true st = Ok tt st' ->
       st_abort st' <> kAbortNone ->
       st_throttle st' = st_throttle st /\ st_list st' = st_list st).
Proof.
  intro H.
  assert (Hk : isOk (kernelAnimate envAbort 10 50 true st3) = true) by (vm_compute; reflexivity).
  destruct (kernelAnimate envAbort 10 50 true st3) as [u st'|m] eqn:E; [|discriminate Hk].
  destruct u.
  assert (Ht : st_throttle st' = true).
  { change st' with (match Ok tt st' with Ok _ s => s | Err _ => st3 end). rewrite <- E.
    vm_compute. reflexivity. }
  assert (Ha : st_abort st' = 1).
  { change st' with (match Ok tt st' with Ok _ s => s | Err _ => st3 end). rewrite <- E.
    vm_compute. reflexivity. }
  destruct (H envAbort 10%nat 50 st3 st' E) as [H1 _]; [rewrite Ha; discriminate|].
  rewrite Ht in H1. discriminate H1.
Qed.

Lemma invoke_abort_continues_witness :
  fastCastEnabled envAbort && negb (st_globals st3 kGlobalVarFastCast =? 0) = false /\
  has (wrapU16 (st_store st3 1 SelSignal)) kSignalFrozen = false /\
  invoke_loop envAbort 10 11 (Some (mkNode 1 12)) st3 =
    Ok true (doitAbort 1 (upd_log st3 (st_log st3 ++ [EvInvokeDoit 1]))) /\
  kernelAnimate envAbort 10 50 true st3 =
    kernelAnimate_frame envAbort 10 0 (Some 11)
      (doitAbort 1 (upd_log st3 (st_log st3 ++ [EvPalVaryUpdate; EvInvokeDoit 1]))).
Proof.
  split; [reflexivity|]. split; [reflexivity|]. split.
  - exact (proj1 (invoke_abort_continues envAbort) 9%nat 11 (mkNode 1 12) st3
             eq_refl eq_refl ltac:(discriminate)).
  - exact (proj1 (proj2 (proj2 (invoke_abort_continues envAbort))) 10%nat 50 st3 0 _ 11 _
             eq_refl ltac:(discriminate) eq_refl eq_refl).
Defined.

Ltac ok_all :=
  repeat match goal with
  | H : Ok _ _ = Ok _ _ |- _ => injection H; clear H; intros; subst
  | H : Err _ = Ok _ _ |- _ => discriminate H
  | H : context [match ?x with Ok _ _ => _ | Err _ => _ end] |- _ =>
      let E := fresh "E" in destruct x eqn:E
  | H : context [match ?x with (_, _) => _ end] |- _ => destruct x
  | H : context [if ?b then _ else _] |- _ => destruct b
  end.

Lemma adjustInvalidCels_signal : forall view it st it' st',
  adjustInvalidCels view it st = Ok it' st' -> signal it' = signal it.
Proof.
  intros view it st it' st' H. unfold adjustInvalidCels in H.
  cbv beta iota zeta delta [bind ret get emit modify readSelector writeSelector fail] in H.
  ok_all; reflexivity.
Qed.

Lemma processViewScaling_signal : forall env view it st it' st',
  processViewScaling env view it st = Ok it' st' -> signal it' = signal it.
Proof.
  intros env view it st it' st' H. unfold processViewScaling in H.
  destruct (negb (isScaleable view)); [injection H; intros; subst; reflexivity|].
  destruct (has (scaleSignal it) kScaleSignalDoScaling);
    [|injection H; intros; subst; reflexivity].
  destruct (has (scaleSignal it) kScaleSignalGlobalScaling);
    [|injection H; intros; subst; reflexivity].
  unfold applyGlobalScaling in H.
  cbv beta iota zeta delta [bind ret get emit modify readSelector writeSelector] in H.
  match type of H with
  | context [if ?b then fail _ else _] => destruct b; [discriminate H|]
  end.
  match type of H with Ok (set_scaling _ _ ?a _) ?s = _ =>
    generalize dependent s; generalize dependent a end.
  intros q st1 H. injection H as <- _. reflexivity.
Qed.

Lemma setNsRect_signal : forall env view it st it' st',
  setNsRect env view it st = Ok it' st' -> signal it' = signal it.
Proof.
  intros env view it st it' st' H. unfold setNsRect, setNSRect, getNSRect in H.
  cbv beta iota zeta delta [bind ret get emit modify readSelector writeSelector fail] in H.
  ok_all; reflexivity.
Qed.

Lemma fill_one_spec : forall env c it st c' it' st',
  fill_one env c it st = Ok (c', it') st' ->
  c' = (if fill_increments_spec (signal it) then wrapU8 (c + 1) else c) /\
  signal it' = (if has (signal it) kSignalNoUpdate
                then Z.land (signal it) (Z.lnot kSignalStopUpdate)
                else Z.land (signal it) (Z.lnot kSignalForceUpdate)).
Proof.
  intros env c it st c' it' st' H. unfold fill_one, bind in H.
  destruct (adjustInvalidCels _ it st) as [it1 st1|m] eqn:E1; [|discriminate H].
  destruct (processViewScaling env _ it1 st1) as [it2 st2|m] eqn:E2; [|discriminate H].
  destruct (setNsRect env _ it2 st2) as [it3 st3|m] eqn:E3; [|discriminate H].
  apply adjustInvalidCels_signal in E1. apply processViewScaling_signal in E2.
  apply setNsRect_signal in E3.
  assert (Hs : signal it3 = signal it) by congruence. clear E1 E2 E3.
  cbv beta iota zeta delta [bind ret get emit modify readSelector writeSelector fail] in H.
  unfold fill_signal in H.
  destruct (negb (has (signal it3) kSignalFixedPriority));
    [change (signal (set_priority it3 ?p)) with (signal it3) in H|]; rewrite Hs in H;
    unfold fill_increments_spec; destruct (has (signal it) kSignalNoUpdate) eqn:N;
    injection H as <- <- _; (split; [|reflexivity]); cbn [andb orb negb];
    try reflexivity;
    (replace (has (signal it) 66)
       with (has (signal it) kSignalForceUpdate || has (signal it) kSignalViewUpdated)
       by (symmetry; exact (has_lor (signal it) kSignalForceUpdate kSignalViewUpdated)));
    destruct (has (signal it) kSignalRemoveView), (has (signal it) kSignalHidden);
    cbn [andb orb negb]; rewrite ?orb_false_r; reflexivity.
Qed.

Lemma fill_list_spec : forall env l c st c' l' st',
  0 <= c < 256 ->
  fill_list env c l st = Ok (c', l') st' ->
  c' = wrapU8 (c + Z.of_nat (List.length (filter (fun e => fill_increments_spec (signal e)) l))) /\
  map signal l' =
    map (fun e => if has (signal e) kSignalNoUpdate
                  then Z.land (signal e) (Z.lnot kSignalStopUpdate)
                  else Z.land (signal e) (Z.lnot kSignalForceUpdate)) l.
Proof.
  intros env l. induction l as [|it t IH]; intros c st c' l' st' Hc H.
  - cbn in H. injection H as <- <- _. split; [|reflexivity].
    unfold wrapU8. rewrite Z.add_0_r, Z.mod_small by lia. reflexivity.
  - cbn [fill_list] in H. unfold bind in H.
    destruct (fill_one env c it st) as [[c1 it1] st1|m] eqn:E1; [|discriminate H].
    destruct (fill_list env c1 t st1) as [[c2 t1] st2|m] eqn:E2; [|discriminate H].
    unfold ret in H. injection H as <- <- _.
    apply fill_one_spec in E1 as [Hc1 Hs1].
    assert (Hr : 0 <= c1 < 256).
    { rewrite Hc1. destruct (fill_increments_spec _); [unfold wrapU8; apply Z.mod_pos_bound|]; lia. }
    destruct (IH c1 st1 c2 t1 st2 Hr E2) as [Hc2 Hs2].
    split.
    + rewrite Hc2, Hc1. cbn [filter].
      destruct (fill_increments_spec (signal it)); cbn [List.length]; unfold wrapU8.
      * rewrite Zplus_mod_idemp_l. f_equal. lia.
      * reflexivity.
    + cbn [map]. rewrite Hs1, Hs2. reflexivity.
Qed.

(** C9: fill adds to the byte counter old_picNotValid one per entry satisfying fill_increments_spec of its signal (modulo 256, as the counter is a byte), and leaves every entry's signal with StopUpdate cleared if NoUpdate is set and ForceUpdate cleared otherwise, all other bits unchanged. *)
Theorem fill_counter_signals : forall env c st c' st',
  0 <= c < 256 ->
  fill env c st = Ok c' st' ->
  c' = wrapU8 (c + Z.of_nat (List.length
                               (filter (fun e => fill_increments_spec (signal e)) (st_list st)))) /\
  map signal (st_list st') =
    map (fun e => if has (signal e) kSignalNoUpdate
                  then Z.land (signal e) (Z.lnot kSignalStopUpdate)
                  else Z.land (signal e) (Z.lnot kSignalForceUpdate)) (st_list st).
Proof.
  intros env c st c' st' Hc H. unfold fill in H. unfold bind at 1, get in H.
  unfold bind in H.
  destruct (fill_list env c (st_list st) st) as [[c1 l1] st1|m] eqn:E; [|discriminate H].
  unfold modify, ret in H. injection H as <- <-.
  destruct (fill_list_spec env (st_list st) c st c1 l1 st1 Hc E) as [H1 H2].
  split; [exact H1|]. exact H2.
Qed.

Lemma fill_counter_signals_witness :
  0 <= 0 < 256 /\
  exists c' st', fill env0 0 stFill = Ok c' st' /\ c' = 1 /\
    map signal (st_list st') = [kSignalNoUpdate; kSignalStopUpdate].
Proof.
  split; [lia|].
  destruct (fill env0 0 stFill) as [c' st'|m] eqn:E; [|vm_compute in E; discriminate E].
  exists c', st'. split; [reflexivity|].
  destruct (fill_counter_signals env0 0 stFill c' st' ltac:(lia) E) as [H1 H2].
  split; [rewrite H1; vm_compute; reflexivity|]. rewrite H2. vm_compute. reflexivity.
Defined.

(** C10: with fast cast enabled and the fast-cast global non-null, invoke returns false at whatever node it is processing, before running that node's doit and without changing the state; and when invoke returns false, kernelAnimate ends with exactly the state invoke left: no list is rebuilt, sorted, drawn, reconciled or disposed, and the snapshot, the screen and all selectors stay as invoke left them. *)
Theorem fastCast_early_exit : forall env,
  (forall f addr n st,
     fastCastEnabled env = true ->
     st_globals st kGlobalVarFastCast <> 0 ->
     invoke_loop env (S f) addr (Some n) st = Ok false st) /\
  (forall fuel lr st old st0 first stI,
     kernelAnimate_prologue env st = Ok old st0 ->
     lr <> 0 ->
     st_lists st0 lr = Some first ->
     invoke env fuel first st0 = Ok false stI ->
     kernelAnimate env fuel lr true st = Ok tt stI).
Proof.
  intros env. split.
  - intros f addr n st Hf Hg. cbn [invoke_loop]. munfold. rewrite Hf.
    apply Z.eqb_neq in Hg. rewrite Hg. reflexivity.
  - intros fuel lr st old st0 first stI Hp Hl Hs Hi. unfold kernelAnimate. munfold.
    rewrite Hp. apply Z.eqb_neq in Hl. rewrite Hl. unfold lookupList. rewrite Hs.
    rewrite Hi. reflexivity.
Qed.

Lemma fastCast_early_exit_witness :
  fastCastEnabled envFast = true /\ st_globals stFast kGlobalVarFastCast <> 0 /\
  invoke_loop envFast 10 11 (Some (mkNode 1 12)) stFast = Ok false stFast /\
  kernelAnimate envFast 10 50 true stFast = Ok tt (upd_log stFast [EvPalVaryUpdate]).
Proof.
  split; [reflexivity|]. split; [discriminate|]. split.
  - exact (proj1 (fastCast_early_exit envFast) 9%nat 11 (mkNode 1 12) stFast eq_refl ltac:(discriminate)).
  - exact (proj2 (fastCast_early_exit envFast) 10%nat 50 stFast 0 _ 11 _
             eq_refl ltac:(discriminate) eq_refl eq_refl).
Defined.

Lemma forward_ext : forall f g,
  (forall it st, f it st = g it st) -> forall l st, forward f l st = forward g l st.
Proof.
  intros f g Hfg l. induction l as [|it t IH]; intros st; [reflexivity|].
  cbn [forward]. unfold bind. rewrite Hfg.
  destruct (g it st) as [it' st1|]; [|reflexivity].
  rewrite IH. reflexivity.
Qed.

Lemma updateScreen_one_old : forall o1 o2 it st,
  updateScreen_one o1 it st = updateScreen_one o2 it st.
Proof.
  intros o1 o2 it st. unfold updateScreen_one. cbv zeta.
  assert (E : forall o, has (signal it) (Z.lor kSignalRemoveView kSignalNoUpdate)
                        || (negb (has (signal it) kSignalRemoveView)
                            && has (signal it) kSignalNoUpdate && negb (o =? 0))
                      = has (signal it) (Z.lor kSignalRemoveView kSignalNoUpdate)).
  { intros o. rewrite has_lor.
    destruct (has (signal it) kSignalRemoveView), (has (signal it) kSignalNoUpdate); reflexivity. }
  rewrite !E. reflexivity.
Qed.

(** X1: updateScreen does not depend on its oldPicNotValid argument: the clause that tests it lies under a negated disjunction that already holds whenever that clause does. *)
Theorem updateScreen_oldPicNotValid_unused : forall o1 o2 st,
  updateScreen o1 st = updateScreen o2 st.
Proof.
  intros o1 o2 st. unfold updateScreen, bind, get.
  rewrite (forward_ext (updateScreen_one o1) (updateScreen_one o2)
             (updateScreen_one_old o1 o2)).
  reflexivity.
Qed.

(** X6: sortHelper is a strict weak order: irreflexive, transitive, and two entries are incomparable only when they have the same y, z and givenOrderNo. *)
Theorem sortHelper_strict_weak_order : forall a b c,
  sortHelper a a = false /\
  (sortHelper a b = true -> sortHelper b c = true -> sortHelper a c = true) /\
  (sortHelper a b = false -> sortHelper b a = false ->
   y a = y b /\ z a = z b /\ givenOrderNo a = givenOrderNo b).
Proof.
  intros a b c. split; [|split].
  - destruct (sortHelper a a) eqn:E; [apply sortHelper_lex in E; lia | reflexivity].
  - intros H1 H2. apply sortHelper_lex in H1, H2. apply sortHelper_lex. lia.
  - intros H1 H2.
    assert (N1 : ~ (y a < y b \/ (y a = y b /\ z a < z b)
                    \/ (y a = y b /\ z a = z b /\ givenOrderNo a < givenOrderNo b)))
      by (rewrite <- sortHelper_lex; congruence).
    assert (N2 : ~ (y b < y a \/ (y b = y a /\ z b < z a)
                    \/ (y b = y a /\ z b = z a /\ givenOrderNo b < givenOrderNo a)))
      by (rewrite <- sortHelper_lex; congruence).
    lia.
Qed.

Lemma sortHelper_strict_weak_order_witness :
  let a := entryObj 1 0 in let b := entryObj 2 0 in
  sortHelper a b = false /\ sortHelper b a = false /\
  y a = y b /\ z a = z b /\ givenOrderNo a = givenOrderNo b.
Proof.
  intros a b.
  assert (Ha : sortHelper a b = false) by reflexivity.
  assert (Hb : sortHelper b a = false) by reflexivity.
  split; [exact Ha|]. split; [exact Hb|].
  exact (proj2 (proj2 (sortHelper_strict_weak_order a b a)) Ha Hb).
Defined.

Lemma bind_ok : forall {A B} (m : M A) (k : A -> M B) st b st',
  bind m k st = Ok b st' -> exists a st1, m st = Ok a st1 /\ k a st1 = Ok b st'.
Proof.
  intros A B m k st b st' H. unfold bind in H.
  destruct (m st) as [a st1|]; [eauto|discriminate].
Qed.

Lemma forward_inv : forall f (R : AnimateEntry -> AnimateEntry -> Prop) (Q : St -> St -> Prop),
  (forall st, Q st st) -> (forall a b c, Q a b -> Q b c -> Q a c) ->
  (forall it it' st st', f it st = Ok it' st' -> R it it' /\ Q st st') ->
  forall l l' st st', forward f l st = Ok l' st' -> Forall2 R l l' /\ Q st st'.
Proof.
  intros f R Q Qrefl Qtrans Hf l. induction l as [|it t IH]; intros l' st st' H.
  - injection H as <- <-. split; [constructor | apply Qrefl].
  - cbn [forward] in H. apply bind_ok in H as [it' [st1 [H1 H]]].
    apply bind_ok in H as [t' [st2 [H2 H]]]. injection H as <- <-.
    destruct (Hf _ _ _ _ H1) as [R1 Q1]. destruct (IH _ _ _ H2) as [R2 Q2].
    split; [constructor; assumption | eapply Qtrans; eassumption].
Qed.

Lemma Forall2_map_eq : forall {B} (g h : AnimateEntry -> B) l l',
  Forall2 (fun a b => g b = h a) l l' -> map g l' = map h l.
Proof. intros B g h l l' H. induction H; cbn; congruence. Qed.

Lemma store_write_other : forall f o s' v o2 s,
  addToPic_sel s' = true -> addToPic_sel s = false -> store_write f o s' v o2 s = f o2 s.
Proof.
  intros f o s' v o2 s H1 H2. unfold store_write.
  destruct s, s'; try discriminate; cbn; rewrite andb_false_r; reflexivity.
Qed.

Lemma applyGlobalScaling_ok : forall env e view st e' st',
  applyGlobalScaling env e view st = Ok e' st' ->
  exists v, e' = set_scaling e (scaleSignal e) v v /\
    st' = upd_store st (store_write (store_write (st_store st) (object e) SelScaleX v)
                                    (object e) SelScaleY v).
Proof.
  intros env e view st e' st' H. unfold applyGlobalScaling in H.
  cbv beta iota zeta delta [bind ret get emit modify readSelector writeSelector] in H.
  match type of H with
  | context [if ?b then fail _ else _] => destruct b; [discriminate H|]
  end.
  match type of H with Ok (set_scaling _ _ ?a _) _ = _ => generalize dependent a end.
  intros q H. injection H as <- <-. exists q. split; [reflexivity|].
  destruct st; reflexivity.
Qed.

Lemma addToPicDrawCels_one_ok : forall env it st it' st',
  addToPicDrawCels_one env it st = Ok it' st' ->
  object it' = object it /\ loopNo it' = loopNo it /\ celNo it' = celNo it /\
  priority it' = (if priority it =? -1
                  then wrap16 (kernelCoordinateToPriority env (y it)) else priority it) /\
  pic_keeps st st'.
Proof.
  intros env it st it' st' H. unfold addToPicDrawCels_one in H. cbv zeta in H.
  apply bind_ok in H as [it3 [st1 [H1 H2]]].
  set (it1 := if priority it =? -1
              then set_priority it (wrap16 (kernelCoordinateToPriority env (y it))) else it) in *.
  set (it2 := if negb (isScaleable (getView env (viewId it))) then set_scaling it1 0 128 128
              else it1) in *.
  assert (P2 : object it2 = object it /\ loopNo it2 = loopNo it /\ celNo it2 = celNo it /\
               priority it2 = (if priority it =? -1
                               then wrap16 (kernelCoordinateToPriority env (y it))
                               else priority it)).
  { subst it2 it1. destruct (priority it =? -1), (negb (isScaleable _)); repeat split. }
  assert (P3 : object it3 = object it /\ loopNo it3 = loopNo it /\ celNo it3 = celNo it /\
               priority it3 = priority it2 /\ pic_keeps st st1).
  { destruct (has (scaleSignal it2) kScaleSignalDoScaling).
    - apply bind_ok in H1 as [it2' [st0 [H0 H1]]].
      assert (E0 : it2' = set_scaling it2 (scaleSignal it2) (scaleX it2') (scaleY it2') /\
                   pic_keeps st st0).
      { destruct (has (scaleSignal it2) kScaleSignalGlobalScaling).
        - apply applyGlobalScaling_ok in H0 as [v [-> ->]]. split; [reflexivity|].
          split; [|split; reflexivity].
          intros o s Hs. cbn. rewrite !store_write_other by (reflexivity || exact Hs).
          reflexivity.
        - injection H0 as <- <-.
          split; [destruct it2; reflexivity | split; [intros o s _; reflexivity | split; reflexivity]]. }
      destruct E0 as [E0 [K0 [Q0 C0]]]. unfold setNSRect in H1. munfold.
      injection H1 as <- <-. rewrite E0. cbn. split; [tauto|]. split; [tauto|].
      split; [tauto|]. split; [reflexivity|]. split; [|split; assumption].
      intros o s Hs. cbn. rewrite !store_write_other by (reflexivity || exact Hs). apply K0, Hs.
    - injection H1 as <- <-. cbn. repeat split; try tauto; intros o s _; reflexivity. }
  destruct P2 as [O2 [L2 [C2 Q2]]]. destruct P3 as [O3 [L3 [C3 [Q3 [K3 [R3 T3]]]]]].
  unfold emit, modify, bind in H2.
  destruct (has (signal it3) kSignalIgnoreActor); cbn [negb] in H2;
    unfold ret, emit, modify, bind in H2; injection H2 as <- <-; cbn;
    (split; [congruence|]); (split; [congruence|]); (split; [congruence|]);
    (split; [congruence|]); (split; [intros o s Hs; cbn; apply K3, Hs | split; assumption]).
Qed.

Lemma fillList_state : forall env fuel n cn st es st',
  fillList env fuel n cn st = Ok es st' -> st' = st.
Proof.
  intros env fuel. induction fuel as [|f IH]; intros n cn st es st' H;
    (destruct cn as [nd|]; [|injection H as _ <-; reflexivity]); cbn [fillList] in H;
    [discriminate|].
  apply bind_ok in H as [e [st1 [H1 H]]]. unfold readEntry in H1. injection H1 as _ <-.
  apply bind_ok in H as [nx [st2 [H2 H]]].
  assert (st2 = st) as ->.
  { unfold lookupNode in H2. destruct (succ nd =? 0); [congruence|].
    destruct (st_nodes st (succ nd)); [congruence|discriminate]. }
  apply bind_ok in H as [rest [st3 [H3 H]]]. injection H as _ <-. eapply IH; eassumption.
Qed.

Lemma makeSortedList_state : forall env fuel first st st',
  makeSortedList env fuel first st = Ok tt st' ->
  st_store st' = st_store st /\ st_lastCast st' = [] /\ st_port st' = st_port st /\
  st_picNotValid st' = st_picNotValid st.
Proof.
  intros env fuel first st st' H. unfold makeSortedList in H.
  apply bind_ok in H as [u [st1 [H1 H]]]. injection H1 as _ <-.
  apply bind_ok in H as [es [st2 [H2 H]]]. injection H as <-.
  unfold castEntries in H2. apply bind_ok in H2 as [cn [st3 [H3 H2]]].
  apply fillList_state in H2 as ->.
  assert (st3 = clearLists st) as ->.
  { unfold lookupNode in H3. destruct (first =? 0); [congruence|].
    destruct (st_nodes (clearLists st) first); [congruence|discriminate]. }
  destruct st; repeat split.
Qed.

(** X10: addToPicDrawCels keeps every entry's object, loop and cel (no loop or cel fixup, unlike fill), replaces a priority of -1 by the priority of its y, and writes no selector other than the scale and nsRect ones. *)
Theorem addToPicDrawCels_no_fixups : forall env st st',
  addToPicDrawCels env st = Ok tt st' ->
  map object (st_list st') = map object (st_list st) /\
  map loopNo (st_list st') = map loopNo (st_list st) /\
  map celNo (st_list st') = map celNo (st_list st) /\
  map priority (st_list st') =
    map (fun e => if priority e =? -1
                  then wrap16 (kernelCoordinateToPriority env (y e)) else priority e)
        (st_list st) /\
  store_keeps st st'.
Proof.
  intros env st st' H. unfold addToPicDrawCels in H.
  apply bind_ok in H as [st0 [st1 [H0 H]]]. injection H0 as <- <-.
  apply bind_ok in H as [l [st2 [H2 H]]]. injection H as <-.
  apply (forward_inv _ (fun it it' =>
      object it' = object it /\ loopNo it' = loopNo it /\ celNo it' = celNo it /\
      priority it' = (if priority it =? -1
                      then wrap16 (kernelCoordinateToPriority env (y it)) else priority it))
      store_keeps) in H2 as [R K].
  - cbn. split; [|split; [|split; [|split]]].
    + apply Forall2_map_eq. eapply Forall2_impl; [|exact R]. cbn. tauto.
    + apply Forall2_map_eq. eapply Forall2_impl; [|exact R]. cbn. tauto.
    + apply Forall2_map_eq. eapply Forall2_impl; [|exact R]. cbn. tauto.
    + apply Forall2_map_eq. eapply Forall2_impl; [|exact R]. cbn. tauto.
    + intros o s Hs. cbn. apply K, Hs.
  - intros a o s _. reflexivity.
  - intros a b c Hab Hbc o s Hs. rewrite Hbc, Hab by exact Hs. reflexivity.
  - intros it it' s0 s1 Hit. apply addToPicDrawCels_one_ok in Hit. unfold pic_keeps in Hit.
    tauto.
Qed.

(** X11: After a successful kAddToPicList the port is the picture port, the picture is marked invalid (1 up to SCI1 early, 2 after), the last cast is empty and only the scale and nsRect selectors may have changed. *)
Theorem kernelAddToPicList_effect : forall env fuel listReference st st',
  kernelAddToPicList env fuel listReference st = Ok tt st' ->
  st_port st' = picWind env /\
  st_picNotValid st' = (if sciVersion env <=? SCI_VERSION_1_EARLY then 1 else 2) /\
  st_lastCast st' = [] /\ store_keeps st st'.
Proof.
  intros env fuel lr st st' H. unfold kernelAddToPicList in H.
  apply bind_ok in H as [u [st1 [H1 H]]]. injection H1 as _ <-.
  apply bind_ok in H as [lst [st2 [H2 H]]]. unfold lookupList in H2. injection H2 as _ <-.
  destruct lst as [first|]; [|unfold fail in H; discriminate H].
  apply bind_ok in H as [u1 [st3 [H3 H]]]. destruct u1.
  apply makeSortedList_state in H3 as [S3 [L3 [P3 _]]].
  apply bind_ok in H as [u2 [st4 [H4 H]]]. destruct u2.
  unfold addToPicDrawCels in H4.
  apply bind_ok in H4 as [st5 [st6 [H5 H4]]]. injection H5 as <- <-.
  apply bind_ok in H4 as [l [st7 [H7 H4]]]. injection H4 as <-.
  apply (forward_inv _ (fun _ _ => True) pic_keeps) in H7 as [_ [K7 [P7 C7]]].
  - unfold addToPicSetPicNotValid, modify in H. injection H as <-. cbn.
    split; [rewrite P7, P3; reflexivity|]. split; [reflexivity|].
    split; [rewrite C7; exact L3|].
    intros o s Hs. cbn. rewrite K7, S3 by exact Hs. reflexivity.
  - intros a. split; [intros o s _; reflexivity | split; reflexivity].
  - intros a b c [Kab [Pab Cab]] [Kbc [Pbc Cbc]]. split; [|split; congruence].
    intros o s Hs. rewrite Kbc, Kab by exact Hs. reflexivity.
  - intros it it' s0 s1 Hit. split; [exact I|].
    apply addToPicDrawCels_one_ok in Hit. tauto.
Qed.

Lemma addToPicDrawCels_no_fixups_witness :
  exists st', addToPicDrawCels env0 stPicList = Ok tt st' /\
    map loopNo (st_list st') = [9] /\ map celNo (st_list st') = [-1] /\
    map priority (st_list st') = [1].
Proof.
  destruct (addToPicDrawCels env0 stPicList) as [[] st'|m] eqn:E;
    [|vm_compute in E; discriminate E].
  exists st'. split; [reflexivity|].
  destruct (addToPicDrawCels_no_fixups env0 stPicList st' E) as (_ & L & C & P & _).
  rewrite L, C, P. vm_compute. split; [reflexivity|]. split; reflexivity.
Defined.

Lemma kernelAddToPicList_effect_witness :
  exists st', kernelAddToPicList env0 10%nat 50 stPic = Ok tt st' /\
    st_picNotValid st' = 2 /\ st_lastCast st' = [] /\ st_store st' 1 SelLoop = 9.
Proof.
  destruct (kernelAddToPicList env0 10%nat 50 stPic) as [[] st'|m] eqn:E;
    [|vm_compute in E; discriminate E].
  exists st'. split; [reflexivity|].
  destruct (kernelAddToPicList_effect env0 10%nat 50 stPic st' E) as (_ & P & L & K).
  split; [exact P|]. split; [exact L|]. rewrite K by reflexivity. reflexivity.
Defined.

Lemma testbit_RV : forall s k, 0 <= k -> k <> 7 ->
  Z.testbit (Z.lor s kSignalRemoveView) k = Z.testbit s k /\
  Z.testbit (Z.land s (Z.lnot kSignalRemoveView)) k = Z.testbit s k.
Proof.
  intros s k Hk H7. rewrite Z.lor_spec, Z.land_spec, Z.lnot_spec by exact Hk.
  change kSignalRemoveView with (2 ^ 7). rewrite Z.pow2_bits_eqb by lia.
  destruct (Z.eqb_spec 7 k); [lia|]. rewrite orb_false_r, andb_true_r. split; reflexivity.
Qed.

Lemma has_clear_RV : forall s m, Z.testbit m 7 = false ->
  has (Z.land s (Z.lnot kSignalRemoveView)) m = has s m.
Proof.
  intros s m Hm. unfold has.
  replace (Z.land (Z.land s (Z.lnot kSignalRemoveView)) m) with (Z.land s m); [reflexivity|].
  apply Z.bits_inj'. intros n Hn. rewrite !Z.land_spec, Z.lnot_spec by exact Hn.
  change kSignalRemoveView with (2 ^ 7). rewrite Z.pow2_bits_eqb by lia.
  destruct (Z.eqb_spec 7 n) as [<-|]; [rewrite Hm; rewrite !andb_false_r; reflexivity|].
  cbn [negb]. rewrite andb_true_r. reflexivity.
Qed.

Lemma update_save_spec : forall e st,
  exists e' st', update_save e st = Ok e' st' /\
    st_log st' = st_log st ++ pass3_saves (st_nextHandle st) [e] /\
    st_nextHandle st' = st_nextHandle st + (if saved e then 1 else 0) /\
    pass3_rel e e'.
Proof.
  intros e st. cbn [pass3_saves]. unfold update_save, pass3_rel, saved.
  destruct (has (signal e) kSignalNoUpdate) eqn:N; cbn [andb negb].
  - destruct (has (signal e) kSignalHidden) eqn:Hd; cbn [negb].
    + eexists; eexists; split; [reflexivity|]. cbn -[has Z.land Z.lnot Z.lor].
      rewrite ?app_nil_r, ?Z.add_0_r. split; [reflexivity|]. split; [reflexivity|].
      split; [reflexivity|]. split.
      * rewrite has_RemoveView, Z.lor_spec. rewrite orb_true_r. reflexivity.
      * intros k Hk H7. apply testbit_RV; assumption.
    + cbn -[has Z.land Z.lnot Z.lor].
      rewrite (has_clear_RV (signal e) kSignalIgnoreActor) by reflexivity.
      destruct (has (signal e) kSignalIgnoreActor); unfold bitsSave; munfold;
        eexists; eexists; (split; [reflexivity|]); cbn -[has Z.land Z.lnot Z.lor];
        (split; [reflexivity|]); (split; [reflexivity|]); (split; [reflexivity|]);
        (split; [rewrite has_RemoveView, Z.land_spec, Z.lnot_spec by lia;
                 change (Z.testbit kSignalRemoveView 7) with true;
                 rewrite andb_false_r; reflexivity|]);
        intros k Hk H7; apply testbit_RV; assumption.
  - eexists; eexists; split; [reflexivity|]. cbn -[has Z.land Z.lnot Z.lor].
    rewrite ?app_nil_r, ?Z.add_0_r. repeat split.
Qed.

Lemma update_pass3_spec : forall l st,
  exists l' st', update_pass3 l st = Ok l' st' /\
    st_log st' = st_log st ++ pass3_saves (st_nextHandle st) l /\
    st_nextHandle st' = st_nextHandle st + Z.of_nat (List.length (filter saved l)) /\
    Forall2 pass3_rel l l'.
Proof.
  unfold update_pass3. induction l as [|e t IH]; intros st.
  - eexists; eexists; split; [reflexivity|]. cbn. rewrite app_nil_r, Z.add_0_r.
    split; [reflexivity|]. split; [reflexivity|constructor].
  - destruct (update_save_spec e st) as [e' [st1 [H1 [L1 [N1 R1]]]]].
    destruct (IH st1) as [t' [st2 [H2 [L2 [N2 R2]]]]].
    exists (e' :: t'), st2. split.
    + cbn [forward]. unfold bind. rewrite H1, H2. reflexivity.
    + rewrite L2, L1, N1, N2, <- app_assoc. cbn [pass3_saves filter].
      destruct (saved e); cbn [List.length app].
      * split; [reflexivity|]. split; [lia|constructor; assumption].
      * rewrite Z.add_0_r. split; [reflexivity|]. split; [lia|constructor; assumption].
Qed.

(** X12: Pass 3 of update saves the background of exactly the NoUpdate, non-Hidden entries, in list order, over all planes or over visual and priority for IgnoreActor entries, and of each NoUpdate entry changes only RemoveView, set to its Hidden bit. *)
Theorem update_pass3_saves : forall l st,
  exists l' st', update_pass3 l st = Ok l' st' /\
    st_log st' = st_log st ++ pass3_saves (st_nextHandle st) l /\
    st_nextHandle st' = st_nextHandle st + Z.of_nat (List.length (filter saved l)) /\
    Forall2 pass3_rel l l'.
Proof. exact update_pass3_spec. Qed.

Lemma update_drawNoUpdate_eq : forall env e st,
  update_drawNoUpdate env e st =
  Ok (pass4_entry e) (upd_log st (st_log st ++ pass4_events env e)).
Proof.
  intros env e st. unfold update_drawNoUpdate, pass4_entry, pass4_events, saved.
  destruct (has (signal e) kSignalNoUpdate && negb (has (signal e) kSignalHidden)).
  - munfold. change (signal (set_showBits e true)) with (signal e).
    destruct (negb (has (signal e) kSignalIgnoreActor)); munfold; cbn;
      rewrite <- ?app_assoc; reflexivity.
  - rewrite app_nil_r, upd_log_self. reflexivity.
Qed.

Lemma update_pass4_eq : forall env l st,
  update_pass4 env l st =
  Ok (map pass4_entry l) (upd_log st (st_log st ++ List.concat (map (pass4_events env) l))).
Proof.
  intros env l. unfold update_pass4. induction l as [|e t IH]; intros st.
  - cbn. rewrite app_nil_r, upd_log_self. reflexivity.
  - cbn [forward map List.concat]. unfold bind at 1. rewrite update_drawNoUpdate_eq.
    unfold bind. rewrite IH. cbn [st_log upd_log ret].
    rewrite upd_log_upd_log, app_assoc. reflexivity.
Qed.

(** X13: Pass 4 of update draws exactly the NoUpdate, non-Hidden entries in list order, marks them shown, and stencils a priority strip for those without IgnoreActor; it never fails. *)
Theorem update_pass4_draws : forall env l st,
  update_pass4 env l st =
  Ok (map pass4_entry l) (upd_log st (st_log st ++ List.concat (map (pass4_events env) l))).
Proof. exact update_pass4_eq. Qed.

Lemma Forall2_nth_error : forall {A B} (R : A -> B -> Prop) l l' i a,
  Forall2 R l l' -> nth_error l i = Some a -> exists b, nth_error l' i = Some b /\ R a b.
Proof.
  intros A B R l l' i a H. revert i. induction H as [|x y' t t' Hxy Ht IH]; intros i Hi.
  - destruct i; discriminate.
  - destruct i as [|i]; cbn in Hi |- *; [injection Hi as <-; eauto | eauto].
Qed.

(** X14: update always succeeds, and leaves every entry with none of NoUpdate, StopUpdate and AlwaysUpdate unchanged at its position. *)
Theorem update_idle_entries : forall env st,
  exists st', update env st = Ok tt st' /\
  forall i e, nth_error (st_list st) i = Some e ->
    has (signal e) kSignalNoUpdate = false -> has (signal e) kSignalStopUpdate = false ->
    has (signal e) kSignalAlwaysUpdate = false ->
    nth_error (st_list st') i = Some e.
Proof.
  intros env st.
  destruct (update_pass1_map (st_list st) st) as [st1 [H1 _]].
  set (l1 := map (remove_entry (st_picNotValid st)) (st_list st)) in *.
  set (st2 := upd_log st1 (st_log st1 ++ List.concat (map (always_events env) l1))).
  destruct (update_pass3_spec (map always_entry l1) st2) as [l3 [st3 [H3 [_ [_ R3]]]]].
  exists (upd_list (upd_log st3 (st_log st3 ++ List.concat (map (pass4_events env) l3)))
                   (map pass4_entry l3)).
  split.
  - unfold update, bind, get. rewrite H1. rewrite (update_pass2_eq env l1 st1).
    fold st2. rewrite H3. rewrite update_pass4_eq. reflexivity.
  - intros i e Hi N S A. cbn.
    assert (E1 : nth_error (map always_entry l1) i = Some e).
    { subst l1. rewrite !nth_error_map, Hi. cbn. f_equal.
      unfold always_entry, remove_entry. rewrite N, S. cbn. rewrite A. reflexivity. }
    destruct (Forall2_nth_error _ _ _ _ _ R3 E1) as [e3 [E3 R]].
    unfold pass3_rel in R. rewrite N in R. subst e3.
    rewrite nth_error_map, E3. cbn. unfold pass4_entry, saved. rewrite N. reflexivity.
Qed.

Lemma drawCels_one_spec : forall e st,
  exists e' st', drawCels_one e st = Ok e' st' /\
    st_lastCast st' = st_lastCast st ++ (if drawable e then [e'] else []) /\
    drawable e' = drawable e /\ object e' = object e /\
    (drawable e = true -> showBitsFlag e' = true /\ has (signal e') kSignalRemoveView = false) /\
    (drawable e = false -> e' = e).
Proof.
  intros e st. unfold drawCels_one, drawable.
  destruct (negb (has (signal e) (Z.lor (Z.lor kSignalNoUpdate kSignalHidden)
                                        kSignalAlwaysUpdate))) eqn:D.
  - unfold bitsSave. munfold. change (signal (set_showBits e true)) with (signal e).
    destruct (has (signal e) kSignalRemoveView) eqn:R; cbv beta iota.
    + eexists; eexists; split; [reflexivity|]. cbn -[has Z.land Z.lnot Z.lor].
      rewrite (has_clear_RV (signal e)) by reflexivity. rewrite D.
      split; [reflexivity|]. split; [reflexivity|]. split; [reflexivity|].
      split; [|discriminate]. intros _. split; [reflexivity|].
      rewrite has_RemoveView, Z.land_spec, Z.lnot_spec by lia.
      change (Z.testbit kSignalRemoveView 7) with true. rewrite andb_false_r. reflexivity.
    + eexists; eexists; split; [reflexivity|]. cbn -[has Z.land Z.lnot Z.lor].
      rewrite D. split; [reflexivity|]. split; [reflexivity|]. split; [reflexivity|].
      split; [|discriminate]. intros _. split; [reflexivity|exact R].
  - eexists; eexists; split; [reflexivity|]. rewrite D, app_nil_r.
    split; [reflexivity|]. split; [reflexivity|]. split; [reflexivity|].
    split; [discriminate|]. intros _. reflexivity.
Qed.

Lemma forward_drawCels_one : forall l st,
  exists l' st', forward drawCels_one l st = Ok l' st' /\
    st_lastCast st' = st_lastCast st ++ filter drawable l' /\ Forall2 drawn_rel l l'.
Proof.
  induction l as [|e t IH]; intros st.
  - eexists; eexists; split; [reflexivity|]. rewrite app_nil_r. split; constructor.
  - destruct (drawCels_one_spec e st) as [e' [st1 [H1 [C1 [D1 [O1 [T1 _]]]]]]].
    destruct (IH st1) as [t' [st2 [H2 [C2 R2]]]].
    exists (e' :: t'), st2. split; [cbn [forward]; unfold bind; rewrite H1, H2; reflexivity|].
    split; [|constructor; [split; [exact D1|split; assumption]|exact R2]].
    rewrite C2, C1, <- app_assoc. cbn [filter]. rewrite D1.
    destruct (drawable e); reflexivity.
Qed.

Lemma drawn_rel_filter : forall l l', Forall2 drawn_rel l l' ->
  map object (filter drawable l') = map object (filter drawable l) /\
  Forall (fun e => showBitsFlag e = true /\ has (signal e) kSignalRemoveView = false)
         (filter drawable l').
Proof.
  intros l l' H. induction H as [|e e' t t' [D [O T]] Ht [IH1 IH2]]; [split; constructor|].
  cbn [filter]. rewrite D. destruct (drawable e) eqn:De; [|split; assumption].
  cbn [map]. rewrite O, IH1. split; [reflexivity|]. constructor; [apply T; reflexivity|exact IH2].
Qed.

(** X15: drawCels always succeeds, keeps the list length, and leaves as last cast exactly the drawn entries (none of NoUpdate, Hidden, AlwaysUpdate) in list order, each marked shown with RemoveView clear. *)
Theorem drawCels_lastCast : forall st,
  exists st', drawCels st = Ok tt st' /\
    st_lastCast st' = filter drawable (st_list st') /\
    List.length (st_list st') = List.length (st_list st) /\
    map object (st_lastCast st') = map object (filter drawable (st_list st)) /\
    Forall (fun e => showBitsFlag e = true /\ has (signal e) kSignalRemoveView = false)
           (st_lastCast st').
Proof.
  intros st.
  destruct (forward_drawCels_one (st_list st) (upd_lastCast st [])) as [l' [st1 [H [C R]]]].
  exists (upd_list st1 l'). split.
  - unfold drawCels, bind, modify, get.
    change (st_list (upd_lastCast st [])) with (st_list st). rewrite H. reflexivity.
  - cbn. rewrite C. cbn. destruct (drawn_rel_filter _ _ R) as [F1 F2].
    split; [reflexivity|]. split; [symmetry; eapply Forall2_length; exact R|].
    split; assumption.
Qed.

Lemma rect_within_extend : forall a r,
  rect_within a (rect_extend a r) = true /\ rect_within r (rect_extend a r) = true.
Proof.
  intros a r. unfold rect_within, rect_extend. cbn.
  split; repeat rewrite andb_true_iff; repeat split; apply Z.leb_le; lia.
Qed.

Lemma rect_within_refl : forall r, rect_within r r = true.
Proof. intros r. unfold rect_within. rewrite !Z.leb_refl. reflexivity. Qed.

(** X16: For each entry shown or with neither RemoveView nor NoUpdate, updateScreen shows a region covering both the old ls rectangle and the cel rectangle, stores the cel rectangle in the ls selectors and sets RemoveView on Hidden entries; any other entry is left alone with the state unchanged. *)
Theorem updateScreen_one_flush : forall o it st,
  exists it' st', updateScreen_one o it st = Ok it' st' /\
  if showBitsFlag it || negb (has (signal it) (Z.lor kSignalRemoveView kSignalNoUpdate)) then
    (exists evs, st_log st' = st_log st ++ evs /\
       shown evs (lsRect_of st (object it)) /\ shown evs (celRect it)) /\
    st_store st' (object it) SelLsLeft = left (celRect it) /\
    st_store st' (object it) SelLsTop = top (celRect it) /\
    st_store st' (object it) SelLsRight = right (celRect it) /\
    st_store st' (object it) SelLsBottom = bottom (celRect it) /\
    it' = (if has (signal it) kSignalHidden
           then set_signal it (Z.lor (signal it) kSignalRemoveView) else it)
  else it' = it /\ st' = st.
Proof.
  intros o it st. unfold updateScreen_one. cbv zeta.
  assert (E : has (signal it) (Z.lor kSignalRemoveView kSignalNoUpdate)
              || (negb (has (signal it) kSignalRemoveView)
                  && has (signal it) kSignalNoUpdate && negb (o =? 0))
              = has (signal it) (Z.lor kSignalRemoveView kSignalNoUpdate)).
  { rewrite has_lor.
    destruct (has (signal it) kSignalRemoveView), (has (signal it) kSignalNoUpdate); reflexivity. }
  rewrite E.
  destruct (showBitsFlag it || negb (has (signal it) (Z.lor kSignalRemoveView kSignalNoUpdate))).
  2: { eexists; eexists; split; [reflexivity|]. split; reflexivity. }
  munfold. fold (lsRect_of st (object it)).
  destruct (negb (rect_isEmpty (rect_clip (lsRect_of st (object it)) (celRect it)))); cbv beta iota;
    eexists; eexists; (split; [reflexivity|]); cbn -[has Z.lor lsRect_of];
    unfold store_write; rewrite Z.eqb_refl; cbn -[has Z.lor lsRect_of];
    (split; [|repeat split]).
  - eexists; split; [reflexivity|].
    destruct (rect_within_extend (lsRect_of st (object it)) (celRect it)) as [W1 W2].
    split; eexists; (split; [left; reflexivity|assumption]).
  - eexists; split; [rewrite <- !app_assoc; reflexivity|].
    split; eexists; split;
      [left; reflexivity | apply rect_within_refl | right; left; reflexivity | apply rect_within_refl].
Qed.

Lemma invoke_loop_frozen : forall env fuel addr n st b st',
  match fuel with
  | O => True
  | S f => has (wrapU16 (st_store st (value n) SelSignal)) kSignalFrozen = true /\
           cast_frozen f st (succ n) = true
  end ->
  (fastCastEnabled env = false \/ st_globals st kGlobalVarFastCast = 0) ->
  invoke_loop env fuel addr (Some n) st = Ok b st' -> b = true /\ st' = st.
Proof.
  intros env fuel. induction fuel as [|f IH]; intros addr n st b st' Hf Hfc H;
    [discriminate H|].
  destruct Hf as [Hn Hc].
  cbn [invoke_loop] in H.
  cbv beta iota zeta delta [bind ret get emit modify readSelector writeSelector fail] in H.
  assert (Hx : fastCastEnabled env && negb (st_globals st kGlobalVarFastCast =? 0) = false)
    by (destruct Hfc as [-> | ->]; [reflexivity | apply andb_false_r]).
  rewrite Hx in H. cbv beta iota in H. rewrite Hn in H. cbv beta iota delta [negb] in H.
  unfold lookupNode in H. destruct (succ n =? 0) eqn:Z0.
  - destruct f; injection H as <- <-; split; reflexivity.
  - destruct (st_nodes st (succ n)) as [m|] eqn:Hm; cbv beta iota in H; [|discriminate H].
    apply (IH (succ n) m st b st'); [|exact Hfc|exact H].
    destruct f as [|f']; [exact I|]. cbn [cast_frozen] in Hc. rewrite Z0, Hm in Hc.
    apply andb_true_iff in Hc. exact Hc.
Qed.

(** X18: When every object of the cast that invoke walks (from the first node along the successor links) is frozen and fast cast is not active, invoke calls no doit method, returns true and changes nothing; objects outside the cast may be unfrozen. *)
Theorem invoke_all_frozen : forall env fuel first st b st',
  cast_frozen fuel st first = true ->
  (fastCastEnabled env = false \/ st_globals st kGlobalVarFastCast = 0) ->
  invoke env fuel first st = Ok b st' -> b = true /\ st' = st.
Proof.
  intros env fuel first st b st' Hall Hfc H. unfold invoke, bind, lookupNode in H.
  destruct (first =? 0) eqn:Z0.
  - destruct fuel; injection H as <- <-; split; reflexivity.
  - destruct (st_nodes st first) as [n|] eqn:Hn; cbv beta iota in H; [|discriminate H].
    apply (invoke_loop_frozen env fuel first n st b st'); [|exact Hfc|exact H].
    destruct fuel as [|f]; [exact I|]. cbn [cast_frozen] in Hall. rewrite Z0, Hn in Hall.
    apply andb_true_iff in Hall. exact Hall.
Qed.

Lemma fillList_fresh : forall env fuel n cn st es st',
  fillList env fuel n cn st = Ok es st' -> Forall (fresh_entry env) es.
Proof.
  intros env fuel. induction fuel as [|f IH]; intros n cn st es st' H;
    (destruct cn as [nd|]; [|injection H as <- _; constructor]); cbn [fillList] in H;
    [discriminate|].
  apply bind_ok in H as [e [st1 [H1 H]]].
  apply bind_ok in H as [nx [st2 [H2 H]]].
  apply bind_ok in H as [rest [st3 [H3 H]]]. injection H as <- _.
  constructor; [|eapply IH; eassumption].
  unfold readEntry in H1. injection H1 as <- _. unfold fresh_entry. cbn.
  split; [reflexivity|]. split; [reflexivity|]. split; [reflexivity|].
  intros Hv. rewrite Z.geb_leb.
  destruct (Z.leb_spec SCI_VERSION_1_1 (sciVersion env)); [lia|]. cbn.
  split; [reflexivity|split; reflexivity].
Qed.

(** X19: Building the entry list reads the cast without changing the state; each entry starts with no cast handle, nothing shown, an empty rectangle and (below SCI1.1) no scaling, and up to 32768 entries get givenOrderNo equal to their index. *)
Theorem castEntries_fresh : forall env fuel first st es st',
  castEntries env fuel first st = Ok es st' ->
  st' = st /\ Forall (fresh_entry env) es /\
  (Z.of_nat (List.length es) <= 32768 ->
   forall i e, nth_error es i = Some e -> givenOrderNo e = Z.of_nat i).
Proof.
  intros env fuel first st es st' H. unfold castEntries in H.
  apply bind_ok in H as [cn [st1 [H1 H]]].
  assert (st1 = st) as ->.
  { unfold lookupNode in H1. destruct (first =? 0); [congruence|].
    destruct (st_nodes st first); [congruence|discriminate]. }
  split; [eapply fillList_state; eassumption|].
  split; [eapply fillList_fresh; eassumption|].
  intros Hlen i e Hi.
  rewrite (fillList_gon env fuel 0 cn st es st' H ltac:(lia) i e Hi).
  assert (Hlt : (i < List.length es)%nat) by (apply nth_error_Some; congruence).
  rewrite wrap16_id; lia.
Qed.

Lemma invoke_all_frozen_witness :
  invoke env0 10%nat 12 stFrozen = Ok true stFrozen.
Proof.
  destruct (invoke env0 10%nat 12 stFrozen) as [b st'|m] eqn:E;
    [|vm_compute in E; discriminate E].
  destruct (invoke_all_frozen env0 10%nat 12 stFrozen b st'
              ltac:(vm_compute; reflexivity) (or_introl eq_refl) E) as [-> ->].
  reflexivity.
Defined.

Lemma castEntries_fresh_witness :
  exists es, castEntries env0 10%nat 11 st3 = Ok es st3 /\
    Forall (fresh_entry env0) es /\ Z.of_nat (List.length es) = 3 /\
    forall i e, nth_error es i = Some e -> givenOrderNo e = Z.of_nat i.
Proof.
  destruct (castEntries env0 10%nat 11 st3) as [es st'|m] eqn:E;
    [|vm_compute in E; discriminate E].
  assert (L : Z.of_nat (List.length es) = 3)
    by (vm_compute in E; injection E as <- _; reflexivity).
  destruct (castEntries_fresh env0 10%nat 11 st3 es st' E) as [-> [F G]].
  exists es. split; [reflexivity|]. split; [exact F|]. split; [exact L|].
  apply G. lia.
Defined.

Lemma update_idle_entries_witness :
  exists st', update env0 stIdle = Ok tt st' /\ nth_error (st_list st') 0 = Some (entryObj 1 0).
Proof.
  destruct (update_idle_entries env0 stIdle) as [st' [U I]].
  exists st'. split; [exact U|].
  apply I; reflexivity.
Defined.

Ltac ok_all_eq :=
  repeat match goal with
  | H : Ok _ _ = Ok _ _ |- _ => injection H; clear H; intros; subst
  | H : Err _ = Ok _ _ |- _ => discriminate H
  | H : context [match ?x with Ok _ _ => _ | Err _ => _ end] |- _ =>
      let E := fresh "E" in destruct x eqn:E
  | H : context [match ?x with (_, _) => _ end] |- _ => destruct x
  | H : context [if ?b then _ else _] |- _ => let E := fresh "B" in destruct b eqn:E
  end.

Lemma wrap16_bound : forall v, -32768 <= wrap16 v <= 32767.
Proof. intros v. unfold wrap16. pose proof (Z.mod_pos_bound (v + 32768) 65536). lia. Qed.

Lemma wrap16_pred : forall v, 0 < wrap16 v -> wrap16 (wrap16 v - 1) = wrap16 v - 1.
Proof. intros v H. apply wrap16_id. pose proof (wrap16_bound v). lia. Qed.

Lemma adjustInvalidCels_keep : forall view it st it' st',
  adjustInvalidCels view it st = Ok it' st' ->
  object it' = object it /\ viewId it' = viewId it /\ y it' = y it /\
  signal it' = signal it /\ priority it' = priority it /\
  (view_nonempty view -> cels_in_range view it').
Proof.
  intros view it st it' st' H. unfold adjustInvalidCels in H.
  cbv beta iota zeta delta [bind ret get emit modify readSelector writeSelector fail] in H.
  ok_all_eq; cbn; (split; [reflexivity|]); (split; [reflexivity|]);
    (split; [reflexivity|]); (split; [reflexivity|]); (split; [reflexivity|]);
    intros [Hl Hc]; unfold cels_in_range; cbn in *; zcases; try discriminate;
    repeat match goal with
    | |- context [wrap16 (wrap16 ?v - 1)] =>
        rewrite (wrap16_pred v) in * by (first [lia | apply Hc; lia])
    end;
    match goal with |- context [getCelCount view ?l] => pose proof (Hc l) end;
    lia.
Qed.

Lemma processViewScaling_keep : forall env view it st it' st',
  processViewScaling env view it st = Ok it' st' -> geom_keep it it'.
Proof.
  intros env view it st it' st' H. unfold processViewScaling in H.
  destruct (negb (isScaleable view));
    [injection H; intros; subst; repeat split|].
  destruct (has (scaleSignal it) kScaleSignalDoScaling);
    [|injection H; intros; subst; repeat split].
  destruct (has (scaleSignal it) kScaleSignalGlobalScaling);
    [|injection H; intros; subst; repeat split].
  unfold applyGlobalScaling in H.
  cbv beta iota zeta delta [bind ret get emit modify readSelector writeSelector] in H.
  match type of H with
  | context [if ?b then fail _ else _] => destruct b; [discriminate H|]
  end.
  match type of H with Ok (set_scaling _ _ ?a _) ?s = _ =>
    generalize dependent s; generalize dependent a end.
  intros q st1 H. injection H as <- _. repeat split.
Qed.

Lemma setNsRect_keep : forall env view it st it' st',
  setNsRect env view it st = Ok it' st' -> geom_keep it it'.
Proof.
  intros env view it st it' st' H. unfold setNsRect, setNSRect, getNSRect in H.
  cbv beta iota zeta delta [bind ret get emit modify readSelector writeSelector fail] in H.
  ok_all; repeat split.
Qed.

Lemma fill_one_rel : forall env c it st c' it' st',
  fill_one env c it st = Ok (c', it') st' -> fill_rel env it it'.
Proof.
  intros env c it st c' it' st' H. unfold fill_one, bind in H.
  destruct (adjustInvalidCels _ it st) as [it1 st1|m] eqn:E1; [|discriminate H].
  destruct (processViewScaling env _ it1 st1) as [it2 st2|m] eqn:E2; [|discriminate H].
  destruct (setNsRect env _ it2 st2) as [it3 st3|m] eqn:E3; [|discriminate H].
  apply adjustInvalidCels_keep in E1 as (O1 & V1 & Y1 & S1 & P1 & R1).
  apply processViewScaling_keep in E2 as (O2 & V2 & Y2 & S2 & P2 & L2 & C2).
  apply setNsRect_keep in E3 as (O3 & V3 & Y3 & S3 & P3 & L3 & C3).
  cbv beta iota zeta delta [bind ret get emit modify readSelector writeSelector fail] in H.
  unfold fill_signal in H.
  assert (Hs : signal it3 = signal it) by congruence.
  assert (R3 : view_nonempty (getView env (viewId it)) ->
               cels_in_range (getView env (viewId it)) it3).
  { intros Hv. unfold cels_in_range in *. rewrite L3, C3, L2, C2. exact (R1 Hv). }
  destruct (has (signal it3) kSignalFixedPriority) eqn:F; cbn [negb] in H;
    [|cbn [signal set_priority] in H];
    destruct (has (signal it3) kSignalNoUpdate); cbv beta iota in H; injection H as _ <- _;
    unfold fill_rel; cbn; rewrite <- Hs, F;
    (split; [congruence|]); (split; [congruence|]); (split; [congruence|]);
    (split; [congruence|]); exact R3.
Qed.

Lemma fill_list_rel : forall env l c st c' l' st',
  fill_list env c l st = Ok (c', l') st' -> Forall2 (fill_rel env) l l'.
Proof.
  intros env l. induction l as [|it t IH]; intros c st c' l' st' H.
  - cbn in H. injection H as _ <- _. constructor.
  - cbn [fill_list] in H. unfold bind in H.
    destruct (fill_one env c it st) as [[c1 it1] st1|m] eqn:E1; [|discriminate H].
    destruct (fill_list env c1 t st1) as [[c2 t1] st2|m] eqn:E2; [|discriminate H].
    unfold ret in H. injection H as _ <- _.
    constructor; [eapply fill_one_rel; exact E1 | eapply IH; exact E2].
Qed.

Lemma fill_rel_list : forall env c st c' st',
  fill env c st = Ok c' st' -> Forall2 (fill_rel env) (st_list st) (st_list st').
Proof.
  intros env c st c' st' H. unfold fill in H. unfold bind at 1, get in H.
  unfold bind in H.
  destruct (fill_list env c (st_list st) st) as [[c1 l1] st1|m] eqn:E; [|discriminate H].
  unfold modify, ret in H. injection H as _ <-. cbn.
  eapply fill_list_rel; exact E.
Qed.

(** X20: fill keeps every entry's object and y, and sets the priority of every entry without FixedPriority to the priority of its y; entries with FixedPriority keep theirs. *)
Theorem fill_priorities : forall env c st c' st',
  fill env c st = Ok c' st' ->
  map object (st_list st') = map object (st_list st) /\
  map y (st_list st') = map y (st_list st) /\
  map priority (st_list st') =
    map (fun e => if has (signal e) kSignalFixedPriority then priority e
                  else wrap16 (kernelCoordinateToPriority env (y e))) (st_list st).
Proof.
  intros env c st c' st' H. apply fill_rel_list in H.
  split; [|split]; apply Forall2_map_eq; eapply Forall2_impl; try exact H;
    unfold fill_rel; cbn; tauto.
Qed.

(** X21: After fill, every entry whose view has at least one loop and one cel per loop has a loop and a cel that are valid indices of that view. *)
Theorem fill_cels_in_range : forall env c st c' st',
  fill env c st = Ok c' st' ->
  Forall2 (fun e e' => viewId e' = viewId e /\
             (view_nonempty (getView env (viewId e)) ->
              cels_in_range (getView env (viewId e)) e'))
          (st_list st) (st_list st').
Proof.
  intros env c st c' st' H. apply fill_rel_list in H.
  eapply Forall2_impl; [|exact H]. unfold fill_rel. tauto.
Qed.

Lemma fill_priorities_witness :
  exists c' st', fill env0 0 stIdle = Ok c' st' /\ map priority (st_list st') = [1].
Proof.
  destruct (fill env0 0 stIdle) as [c' st'|m] eqn:E; [|vm_compute in E; discriminate E].
  exists c', st'. split; [reflexivity|].
  destruct (fill_priorities env0 0 stIdle c' st' E) as (_ & _ & P).
  rewrite P. vm_compute. reflexivity.
Defined.

Lemma fill_cels_in_range_witness :
  exists c' st', fill env0 0 stLoop9 = Ok c' st' /\ Forall (cels_in_range view0) (st_list st').
Proof.
  destruct (fill env0 0 stLoop9) as [c' st'|m] eqn:E; [|vm_compute in E; discriminate E].
  exists c', st'. split; [reflexivity|].
  pose proof (fill_cels_in_range env0 0 stLoop9 c' st' E) as F.
  change (st_list stLoop9) with [entryLoop9] in F.
  inversion F as [|a e' l l' [_ R] F' Ha Hl]; subst. inversion F'; subst.
  constructor; [|constructor].
  apply R. split; [vm_compute; reflexivity|]. intros l _. vm_compute. reflexivity.
Defined.
